(** * Strawberry extension lifecycle runner and subscription driver

    A shallow embedding of
      - strawberry/extensions/context.py  (hook wrappers, phase runners),
      - strawberry/extensions/runner.py   (results aggregation),
      - strawberry/schema/subscribe.py    (the subscription driver),
    together with the properties the specification states about them, and
    of the type containers of strawberry/type.py and the field lookup of
    strawberry/types/types.py.

    Python generators are embedded as the list of code segments that remain
    to be executed, a segment being the code between two suspension points.
    Mutable state (the execution context, the generator objects held by a
    phase runner) is passed explicitly; observable steps are appended to a
    log so that ordering properties can be stated. *)

From stdpp Require Import base option list gmap strings fin_maps.
From Stdlib Require Import Lia.

Set Default Proof Using "Type".
Open Scope string_scope.
Open Scope list_scope.

(** ** Exceptions *)

(** The exception classes the modelled code raises, catches or lets through.
    All of them derive from [Exception]; [GeneratorExit], which does not, only
    occurs when a generator is closed and is handled by [aclose] below. *)
Inductive exn :=
| StopIteration
| StopAsyncIteration
| RuntimeError (msg : string)
| AssertionError
| UserException (msg : string).

Global Instance exn_eq_dec : EqDecision exn.
Proof. solve_decision. Defined.

Definition exn_message (e : exn) : string :=
  match e with
  | RuntimeError m | UserException m => m
  | _ => ""
  end.

(** What [contextlib.suppress(StopIteration, StopAsyncIteration)] catches. *)
Definition is_stop (e : exn) : bool :=
  match e with
  | StopIteration | StopAsyncIteration => true
  | _ => false
  end.

(** ** Phases and their class attributes (context.py, lines 186-207) *)

Inductive phase := Operation | Validation | Parsing | Executing.

Global Instance phase_eq_dec : EqDecision phase.
Proof. solve_decision. Defined.

Definition HOOK_NAME (p : phase) : string :=
  match p with
  | Operation => "on_operation"
  | Validation => "on_validate"
  | Parsing => "on_parse"
  | Executing => "on_execute"
  end.

Definition LEGACY_ENTER (p : phase) : string :=
  match p with
  | Operation => "on_request_start"
  | Validation => "on_validation_start"
  | Parsing => "on_parsing_start"
  | Executing => "on_executing_start"
  end.

Definition LEGACY_EXIT (p : phase) : string :=
  match p with
  | Operation => "on_request_end"
  | Validation => "on_validation_end"
  | Parsing => "on_parsing_end"
  | Executing => "on_executing_end"
  end.

(** [__init_subclass__] *)
Definition DEPRECATION_MESSAGE (p : phase) : string :=
  "Event driven styled extensions for " +:+ LEGACY_ENTER p +:+ " or "
  +:+ LEGACY_EXIT p +:+ " are deprecated, use " +:+ HOOK_NAME p +:+ " instead".

(** ** User code: effects, callables, generators *)

(** Side effects of user-written hook code.  [Observe] stands for any
    effect visible outside the extension (the tests use
    [called_hooks.add(n)]); [SetExtensionsResult] is a write to the shared
    execution context, [self.execution_context.extensions_results[k] = v]. *)
Inductive effect :=
| Observe (label : string)
| SetExtensionsResult (k v : string).

(** A plain function or coroutine function: what it does when called, or
    when called and awaited, and what that call or that [await] then
    raises, if anything. *)
Record callable := Callable {
  is_coroutine : bool;
  c_effects : list effect;
  c_raises : option exn
}.

(** How a segment of generator code ends. *)
Inductive seg_end := SYield | SReturn | SRaise (e : exn).

Record segment := Segment {
  seg_effects : list effect;
  seg_how : seg_end
}.

(** A generator object: the segments it still has to run.  A generator
    whose list is empty has finished. *)
Definition generator := list segment.

(** What an exception raised by the code of a generator leaves its
    [__next__] or [__anext__] as, [stop] being the completion signal of the
    generator.  A [StopIteration] raised inside a generator, and a
    [StopIteration] or [StopAsyncIteration] raised inside an async generator,
    is replaced by a [RuntimeError] (PEP 479, PEP 525): only the end of the
    code gives the completion signal. *)
Definition generator_raises (stop : exn) (e : exn) : exn :=
  match e with
  | StopIteration =>
      if decide (stop = StopAsyncIteration)
      then RuntimeError "async generator raised StopIteration"
      else RuntimeError "generator raised StopIteration"
  | StopAsyncIteration =>
      if decide (stop = StopAsyncIteration)
      then RuntimeError "async generator raised StopAsyncIteration"
      else e
  | _ => e
  end.

(** [__next__] of a generator (with [stop := StopIteration]) and [__anext__]
    of an async generator (with [stop := StopAsyncIteration]): run up to the
    next suspension point. *)
Definition gen_next (stop : exn) (g : generator)
  : generator * list effect * option exn :=
  match g with
  | [] => ([], [], Some stop)
  | s :: rest =>
      match seg_how s with
      | SYield => (rest, seg_effects s, None)
      | SReturn => ([], seg_effects s, Some stop)
      | SRaise e => ([], seg_effects s, Some (generator_raises stop e))
      end
  end.

(** ** Extensions (base_extension.py) *)

(** What [getattr(type(extension), HOOK_NAME)] can be. *)
Inductive hook_fn :=
| DefaultHook                                 (* inherited from [Extension] *)
| GeneratorFunction (body : generator)        (* [def ...: ... yield ...] *)
| AsyncGeneratorFunction (body : generator)   (* [async def ...: ... yield ...] *)
| PlainCallable (c : callable)                (* no [yield] in the body *)
| NotCallable.                                (* a truthy non-callable attribute *)

(** What [extension.get_results] can be. *)
Inductive get_results_fn :=
| DefaultGetResults                                  (* inherited: [return {}] *)
| SyncGetResults (r : exn + gmap string string)
| AsyncGetResults (r : exn + gmap string string).

Record Extension := {
  ext_name : string;
  new_style : phase -> hook_fn;
  legacy_start : phase -> option callable;
  legacy_end : phase -> option callable;
  get_results : get_results_fn
}.

(** ** Results and the execution context *)

Record GraphQLError := {
  message : string;
  original_error : option exn
}.

Inductive result_class :=
| PreExecutionError | ExecutionResult | OriginalExecutionResult.

Global Instance result_class_eq_dec : EqDecision result_class.
Proof. solve_decision. Defined.

Record result := Result {
  r_class : result_class;
  data : option string;
  errors : list GraphQLError;
  extensions : gmap string string
}.

Record ExecutionContext := {
  graphql_document : option string;
  extensions_results : gmap string string
}.

(** ** The log of observable steps *)

Inductive event :=
| HookEffect (p : phase) (ext : string) (eff : effect)
| Warned (msg : string)                   (* [warnings.warn] *)
| Entered (p : phase)                     (* [__enter__]/[__aenter__] returned *)
| Exited (p : phase)                      (* [__exit__]/[__aexit__] returned *)
| ParserCalled                            (* the external parser was called *)
| ValidatorCalled                         (* the external validator was called *)
| Subscribed                              (* [original_subscribe] was called *)
| ResetExtensionsResults
| Pulled                                  (* [aiterator.__anext__()] was awaited *)
| GotResults (ext : string)               (* [extension.get_results()] was called *)
| Emitted (r : result).                   (* a [yield] of the driver *)

Record world := World {
  ctx : ExecutionContext;
  log : list event
}.

Definition emit (ev : event) (w : world) : world :=
  World (ctx w) (log w ++ [ev]).

Definition apply_effect (eff : effect) (c : ExecutionContext) : ExecutionContext :=
  match eff with
  | Observe _ => c
  | SetExtensionsResult k v =>
      {| graphql_document := graphql_document c;
         extensions_results := <[k := v]> (extensions_results c) |}
  end.

(** Running the effects of one piece of hook code of extension [ext]. *)
Definition perform (p : phase) (ext : string) (effs : list effect) (w : world) : world :=
  World (foldl (fun c eff => apply_effect eff c) (ctx w) effs)
        (log w ++ map (HookEffect p ext) effs).

(** ** A state-and-exception monad for the driver code *)

Inductive outcome (A : Type) :=
| Ok (a : A)
| Raise (e : exn).
Arguments Ok {A} a.
Arguments Raise {A} e.

Definition M (A : Type) : Type := world -> world * outcome A.

Global Instance M_ret : MRet M := fun A a w => (w, Ok a).
Global Instance M_bind : MBind M := fun A B f m w =>
  match m w with
  | (w', Ok a) => f a w'
  | (w', Raise e) => (w', Raise e)
  end.

Definition raise {A} (e : exn) : M A := fun w => (w, Raise e).
Definition tell (ev : event) : M unit := fun w => (emit ev w, Ok tt).
Definition get_ctx : M ExecutionContext := fun w => (w, Ok (ctx w)).
Definition set_ctx (c : ExecutionContext) : M unit := fun w => (World c (log w), Ok tt).

(** [try: m except Exception as e: h e] *)
Definition try_except {A} (m : M A) (h : exn -> M A) : M A := fun w =>
  match m w with
  | (w', Raise e) => h e w'
  | r => r
  end.

(** ** context.py *)

Record WrappedHook := {
  extension : Extension;
  initialized_hook : generator;
  is_async : bool
}.

Definition with_hook (h : WrappedHook) (g : generator) : WrappedHook :=
  {| extension := extension h; initialized_hook := g; is_async := is_async h |}.

(** [iscoroutinefunction(f)] for an attribute that may be [None]. *)
Definition iscoroutinefunction (f : option callable) : bool :=
  match f with
  | Some c => is_coroutine c
  | None => false
  end.

(** One guarded call [if f: f()] inside a generator body, followed by [how]
    when the call returns. *)
Definition guarded_call (f : option callable) (how : seg_end) : segment :=
  match f with
  | Some c =>
      Segment (c_effects c)
              (match c_raises c with Some e => SRaise e | None => how end)
  | None => Segment [] how
  end.

(** [from_legacy] (lines 83-111): both branches define
    [on_start(); yield; on_end()], awaited in the first branch. *)
Definition from_legacy (ext : Extension) (on_start on_end : option callable)
  : WrappedHook :=
  if iscoroutinefunction on_start || iscoroutinefunction on_end then
    let iterator := [guarded_call on_start SYield; guarded_call on_end SReturn] in
    {| extension := ext; initialized_hook := iterator; is_async := true |}
  else
    let iterator := [guarded_call on_start SYield; guarded_call on_end SReturn] in
    {| extension := ext; initialized_hook := iterator; is_async := false |}.

(** [from_callable] (lines 113-133): [func(extension); yield]. *)
Definition from_callable (ext : Extension) (func : callable) : WrappedHook :=
  if is_coroutine func then
    let iterator := [guarded_call (Some func) SYield] in
    {| extension := ext; initialized_hook := iterator; is_async := true |}
  else
    let iterator := [guarded_call (Some func) SYield] in
    {| extension := ext; initialized_hook := iterator; is_async := false |}.

(** [str(Extension)], the class object the f-string of [get_hook] formats. *)
Definition Extension_class_str : string :=
  "<class 'strawberry.extensions.base_extension.Extension'>".

(** The message built at lines 64-65.  Only the first literal carries the
    [f] prefix: the second one is an ordinary string, so its braces are
    kept as they are written. *)
Definition conflict_message (p : phase) : string :=
  Extension_class_str +:+ " defines both legacy and new style extension hooks for "
  +:+ "{self.HOOK_NAME}".

(** [get_hook] (lines 55-81).  Its only effect is the deprecation warning,
    so it returns what it logs together with its outcome. *)
Definition get_hook (p : phase) (ext : Extension)
  : list event * outcome (option WrappedHook) :=
  let on_start := legacy_start ext p in
  let on_end := legacy_end ext p in
  let is_legacy := bool_decide (on_start ≠ None) || bool_decide (on_end ≠ None) in
  let hook_fn :=
    match new_style ext p with DefaultHook => None | f => Some f end in
  if is_legacy && bool_decide (hook_fn ≠ None) then
    ([], Raise (RuntimeError (conflict_message p)))
  else if is_legacy then
    ([Warned (DEPRECATION_MESSAGE p)], Ok (Some (from_legacy ext on_start on_end)))
  else
    match hook_fn with
    | Some (GeneratorFunction body) =>
        ([], Ok (Some {| extension := ext; initialized_hook := body; is_async := false |}))
    | Some (AsyncGeneratorFunction body) =>
        ([], Ok (Some {| extension := ext; initialized_hook := body; is_async := true |}))
    | Some (PlainCallable c) => ([], Ok (Some (from_callable ext c)))
    | _ => ([], Ok None)
    end.

(** [__init__] (lines 47-53): the wrappers, in the order of [extensions]. *)
Fixpoint init_hooks (p : phase) (extensions : list Extension)
  : list event * outcome (list WrappedHook) :=
  match extensions with
  | [] => ([], Ok [])
  | ext :: rest =>
      match get_hook p ext with
      | (warned, Raise e) => (warned, Raise e)
      | (warned, Ok hook) =>
          match init_hooks p rest with
          | (warned', Raise e) => (warned ++ warned', Raise e)
          | (warned', Ok hooks) =>
              (warned ++ warned',
               Ok (match hook with Some h => h :: hooks | None => hooks end))
          end
      end
  end.

(** [extensions_runner.<phase>()] as the driver calls it: a new phase
    runner over the extensions of the runner.  In runner.py (lines 31-41)
    the call also passes [self.execution_context], a second argument that
    [__init__] (context.py, line 47) does not take and that nothing in
    context.py reads: written like that the call raises a [TypeError] and no
    scope is ever entered.  The driver is followed with the call [__init__]
    accepts, [<Phase>ContextManager(self.extensions)]. *)
Definition new_phase_runner (p : phase) (extensions : list Extension)
  : M (list WrappedHook) := fun w =>
  let '(warned, r) := init_hooks p extensions in
  (World (ctx w) (log w ++ warned), r).

(** The message of the usage error of [run_hooks_sync] (lines 146-149). *)
Definition sync_failure_message (p : phase) (hook : WrappedHook) : string :=
  "Extension hook " +:+ ext_name (extension hook) +:+ "." +:+ HOOK_NAME p
  +:+ " failed to complete synchronously.".

(** What happens to an exception that leaves the [with ctx:] block: [ctx] is
    [contextlib.suppress(StopIteration, StopAsyncIteration)] on exit and
    [contextlib.nullcontext()] on entry. *)
Definition ctx_suppresses (is_exit : bool) (e : exn) : bool :=
  is_exit && is_stop e.

(** The body of the [with ctx:] block of [run_hooks_sync] (lines 145-151). *)
Definition advance_sync (p : phase) (hook : WrappedHook) (w : world)
  : WrappedHook * world * option exn :=
  if is_async hook then
    (hook, w, Some (RuntimeError (sync_failure_message p hook)))
  else
    let '(g, effs, r) := gen_next StopIteration (initialized_hook hook) in
    (with_hook hook g, perform p (ext_name (extension hook)) effs w, r).

(** The body of the [with ctx:] block of [run_hooks_async] (lines 168-171). *)
Definition advance_async (p : phase) (hook : WrappedHook) (w : world)
  : WrappedHook * world * option exn :=
  if is_async hook then
    let '(g, effs, r) := gen_next StopAsyncIteration (initialized_hook hook) in
    (with_hook hook g, perform p (ext_name (extension hook)) effs w, r)
  else
    let '(g, effs, r) := gen_next StopIteration (initialized_hook hook) in
    (with_hook hook g, perform p (ext_name (extension hook)) effs w, r).

(** [for hook in self.hooks: with ctx: <advance>], the loop both runners
    share.  The result carries the hooks with their generators as the loop
    left them, since the generator objects are mutated in place. *)
Fixpoint for_each_hook
    (advance : WrappedHook -> world -> WrappedHook * world * option exn)
    (is_exit : bool) (hooks : list WrappedHook) (w : world)
  : list WrappedHook * world * option exn :=
  match hooks with
  | [] => ([], w, None)
  | hook :: rest =>
      let '(hook', w', r) := advance hook w in
      match r with
      | Some e =>
          if ctx_suppresses is_exit e then
            let '(rest', w'', r') := for_each_hook advance is_exit rest w' in
            (hook' :: rest', w'', r')
          else (hook' :: rest, w', Some e)
      | None =>
          let '(rest', w'', r') := for_each_hook advance is_exit rest w' in
          (hook' :: rest', w'', r')
      end
  end.

(** [run_hooks_sync] (lines 136-151). *)
Definition run_hooks_sync (p : phase) (is_exit : bool) (hooks : list WrappedHook)
    (w : world) : list WrappedHook * world * option exn :=
  for_each_hook (advance_sync p) is_exit hooks w.

(** A [StopIteration] that escapes a coroutine is replaced by a
    [RuntimeError] (PEP 479); this is what the docstring of
    [run_hooks_async] refers to. *)
Definition coroutine_raises (e : exn) : exn :=
  match e with
  | StopIteration => RuntimeError "coroutine raised StopIteration"
  | _ => e
  end.

(** The body of an [async def] function. *)
Definition in_coroutine {A} (m : M A) : M A := fun w =>
  match m w with
  | (w', Raise e) => (w', Raise (coroutine_raises e))
  | r => r
  end.

(** [run_hooks_async] (lines 154-171). *)
Definition run_hooks_async (p : phase) (is_exit : bool) (hooks : list WrappedHook)
    (w : world) : list WrappedHook * world * option exn :=
  let '(hooks', w', r) := for_each_hook (advance_async p) is_exit hooks w in
  (hooks', w', coroutine_raises <$> r).

(** The two ways of driving a phase runner. *)
Inductive mode := Blocking | Suspending.

Definition run_hooks (m : mode) :=
  match m with
  | Blocking => run_hooks_sync
  | Suspending => run_hooks_async
  end.

(** [__enter__], [__exit__], [__aenter__], [__aexit__] (lines 173-183); the
    log records that the call returned. *)
Definition scope_enter (m : mode) (p : phase) (hooks : list WrappedHook) (w : world)
  : list WrappedHook * world * option exn :=
  let '(hooks', w', r) := run_hooks m p false hooks w in
  match r with
  | None => (hooks', emit (Entered p) w', None)
  | Some e => (hooks', w', Some e)
  end.

Definition scope_exit (m : mode) (p : phase) (hooks : list WrappedHook) (w : world)
  : list WrappedHook * world * option exn :=
  let '(hooks', w', r) := run_hooks m p true hooks w in
  match r with
  | None => (hooks', emit (Exited p) w', None)
  | Some e => (hooks', w', Some e)
  end.

Definition __enter__ := scope_enter Blocking.
Definition __exit__ := scope_exit Blocking.
Definition __aenter__ := scope_enter Suspending.
Definition __aexit__ := scope_exit Suspending.

(** ** runner.py *)

(** [_implments_get_rseults] (lines 43-46, spelled as in the source). *)
Definition _implments_get_rseults (ext : Extension) : bool :=
  match get_results ext with
  | DefaultGetResults => false
  | _ => true
  end.

Definition async_results_message : string :=
  "Cannot use async extension hook during sync execution".

(** What calling [extension.get_results()] gives, awaited where it is
    awaitable; the inherited implementation returns the empty mapping. *)
Definition returned (ext : Extension) : exn + gmap string string :=
  match get_results ext with
  | DefaultGetResults => inr ∅
  | SyncGetResults r | AsyncGetResults r => r
  end.

(** [inspect.iscoroutinefunction(extension.get_results)] *)
Definition get_results_is_coroutine (ext : Extension) : bool :=
  match get_results ext with
  | AsyncGetResults _ => true
  | _ => false
  end.

Definition call_get_results (ext : Extension) : M (gmap string string) :=
  _ ← tell (GotResults (ext_name ext));
  match returned ext with
  | inl e => raise e
  | inr d => mret d
  end.

(** The loop of [get_extensions_results_sync] (lines 50-55) with [data] as
    it stands; [data.update(d)] is [d ∪ data]. *)
Fixpoint get_extensions_results_sync_from (extensions : list Extension)
    (data : gmap string string) : M (gmap string string) :=
  match extensions with
  | [] => mret data
  | ext :: rest =>
      if _implments_get_rseults ext then
        if get_results_is_coroutine ext then
          raise (RuntimeError async_results_message)
        else
          d ← call_get_results ext;
          get_extensions_results_sync_from rest (d ∪ data)
      else get_extensions_results_sync_from rest data
  end.

(** [get_extensions_results_sync] (lines 48-57). *)
Definition get_extensions_results_sync (extensions : list Extension)
  : M (gmap string string) :=
  get_extensions_results_sync_from extensions ∅.

(** The loop of [get_extensions_results] (lines 62-64). *)
Fixpoint get_extensions_results_from (extensions : list Extension)
    (data : gmap string string) : M (gmap string string) :=
  match extensions with
  | [] => mret data
  | ext :: rest =>
      if _implments_get_rseults ext then
        d ← call_get_results ext;
        get_extensions_results_from rest (d ∪ data)
      else get_extensions_results_from rest data
  end.

(** [get_extensions_results] (lines 59-67); its [ctx] argument is the
    execution context of the operation. *)
Definition get_extensions_results (extensions : list Extension)
  : M (gmap string string) :=
  in_coroutine (
    data ← get_extensions_results_from extensions ∅;
    c ← get_ctx;
    mret (extensions_results c ∪ data)).

(** ** subscribe.py *)

(** What the external parser and the external validator do when they are
    called. *)
Inductive parse_outcome :=
| Document (document : string)
| SyntaxErrors (errs : list GraphQLError)
| ParserRaises (e : exn).

Inductive validation_outcome :=
| Valid
| Invalid (errs : list GraphQLError)
| ValidatorRaises (e : exn).

(** One pull from the external event iterator. *)
Inductive pull :=
| Event (r : result)
| PullRaises (e : exn).

(** What awaiting [original_subscribe(...)] gives: an
    [OriginalExecutionResult] or an event iterator.  An iterator is given by
    what its first pull does, its second pull and so on; it need not ever be
    exhausted. *)
Inductive subscribe_outcome :=
| ImmediateResult (errs : list GraphQLError)
| EventIterator (aiterator : nat -> pull).

(** The collaborators of one subscription. *)
Record subscription := {
  sub_extensions : list Extension;
  sub_parse : parse_outcome;
  sub_validate : validation_outcome;
  sub_source : exn + subscribe_outcome
}.

(** [async with extensions_runner.<phase>(): body]: the runner is built,
    entered, and exited when [body] returns or raises; [__aexit__] returns
    [None], so a failure of [body] is re-raised unless the exit itself fails. *)
Definition async_with {A} (p : phase) (extensions : list Extension) (body : M A)
  : M A := fun w =>
  match new_phase_runner p extensions w with
  | (w1, Raise e) => (w1, Raise e)
  | (w1, Ok hooks) =>
      let '(hooks1, w2, r) := __aenter__ p hooks w1 in
      match r with
      | Some e => (w2, Raise e)
      | None =>
          let '(w3, o) := body w2 in
          let '(_, w4, r') := __aexit__ p hooks1 w3 in
          match r' with
          | Some e' => (w4, Raise e')
          | None => (w4, o)
          end
      end
  end.

(** Modelled from the spec: [_parse_and_validate_async] is defined in
    schema/execute.py, which is not among the sources.  Following section 2
    it opens the parsing scope and the validation scope around the calls of
    the external parser and of the external validator.  Following sections
    3 and 6 the parsed document is attached to the context when parsing
    succeeds, and the errors either of them finds are returned as a
    pre-execution error.  Where the parser finds errors there is no
    document to validate: the validator is not called and, the scopes being
    opened around the calls, no validation scope is opened. *)
Definition _parse_and_validate_async (extensions : list Extension)
    (parse : parse_outcome) (validate : validation_outcome) : M (option result) :=
  syntax_errors ← async_with Parsing extensions (
    _ ← tell ParserCalled;
    match parse with
    | Document document =>
        c ← get_ctx;
        _ ← set_ctx {| graphql_document := Some document;
                       extensions_results := extensions_results c |};
        mret None
    | SyntaxErrors errs => mret (Some errs)
    | ParserRaises e => raise e
    end);
  match syntax_errors with
  | Some errs => mret (Some (Result PreExecutionError None errs ∅))
  | None =>
      validation_errors ← async_with Validation extensions (
        _ ← tell ValidatorCalled;
        match validate with
        | Valid => mret None
        | Invalid errs => mret (Some errs)
        | ValidatorRaises e => raise e
        end);
      match validation_errors with
      | Some errs => mret (Some (Result PreExecutionError None errs ∅))
      | None => mret None
      end
  end.

(** Modelled from the spec: [_coerce_error] is defined in
    schema/execute.py.  Following section 6 it wraps a raised failure into
    an error object with a message and a reference to the original cause. *)
Definition _coerce_error (e : exn) : GraphQLError :=
  {| message := exn_message e; original_error := Some e |}.

(** Modelled from the spec: [_handle_execution_result] is defined in
    schema/execute.py.  Following sections 4.5 and 6 it invokes the
    results aggregation of the extensions runner and returns the result it
    was given, of the same class, with the merged mapping as its
    [extensions]. *)
Definition _handle_execution_result (extensions : list Extension) (r : result)
  : M result :=
  in_coroutine (
    d ← get_extensions_results extensions;
    mret (Result (r_class r) (data r) (errors r) d)).

(** The suspension points of [_subscribe], with the live local variables:
    the operation phase runner, the event iterator and [running]. *)
Inductive agen_state :=
| NotStarted
| AtInitialError (op : list WrappedHook)                       (* line 57 *)
| AtImmediateError (op : list WrappedHook)                     (* line 82 *)
| AtEvent (op : list WrappedHook) (aiterator : nat -> pull) (running : bool)
                                                               (* line 110 *)
| AtHookError (op : list WrappedHook)                          (* line 121 *)
| Finished.

(** What [__anext__] of an async generator gives when it does not raise,
    [state] being the suspension points of the generator. *)
Inductive step (state : Type) :=
| Yielded (r : result) (s : state)
| Exhausted.                                 (* [StopAsyncIteration] *)
Arguments Yielded {state} r s.
Arguments Exhausted {state}.

(** What the [try] block of lines 95-106 leaves behind. *)
Inductive pulled :=
| Break
| Got (origin_result : result) (running : bool).

(** The iterator after one pull. *)
Definition after_pull (aiterator : nat -> pull) : nat -> pull :=
  fun n => aiterator (S n).

(** Lines 95-106, the body of the [async with] of the loop. *)
Definition pull_next (aiterator : nat -> pull) : M (pulled * (nat -> pull)) :=
  _ ← tell Pulled;
  match aiterator 0 with
  | Event r => mret (Got r true, after_pull aiterator)
  | PullRaises e =>
      if decide (e = StopAsyncIteration) then mret (Break, after_pull aiterator)
      else mret (Got (Result ExecutionResult None [_coerce_error e] ∅) false,
                 after_pull aiterator)
  end.

(** Lines 91-115 from the loop test up to the next [yield]: [Some] is a
    value to yield with the state to resume from, [None] is the end of the
    loop. *)
Definition while_running (extensions : list Extension) (op : list WrappedHook)
    (aiterator : nat -> pull) (running : bool) : M (option (result * agen_state)) :=
  if running then
    c ← get_ctx;
    _ ← set_ctx {| graphql_document := graphql_document c; extensions_results := ∅ |};
    _ ← tell ResetExtensionsResults;
    '(pl, rest) ← async_with Executing extensions (pull_next aiterator);
    match pl with
    | Break => mret None
    | Got origin_result running' =>
        r ← _handle_execution_result extensions origin_result;
        mret (Some (r, AtEvent op rest running'))
    end
  else mret None.

(** The [try ... except Exception as exc] of lines 60-126 around [body]. *)
Definition in_try (extensions : list Extension) (op : list WrappedHook)
    (body : M (option (result * agen_state))) : M (option (result * agen_state)) :=
  try_except body (fun exc =>
    let origin_result := Result OriginalExecutionResult None [_coerce_error exc] ∅ in
    r ← _handle_execution_result extensions origin_result;
    mret (Some (r, AtHookError op))).

(** Lines 60-115: the [try] block from its start. *)
Definition subscribe_block (sub : subscription) (op : list WrappedHook)
  : M (option (result * agen_state)) :=
  let extensions := sub_extensions sub in
  in_try extensions op (
    aiter_or_result ← async_with Executing extensions (
      c ← get_ctx;
      if decide (graphql_document c = None) then raise AssertionError
      else
        _ ← tell Subscribed;
        match sub_source sub with
        | inl e => raise e
        | inr o => mret o
        end);
    match aiter_or_result with
    | ImmediateResult errs =>
        r ← _handle_execution_result extensions (Result PreExecutionError None errs ∅);
        mret (Some (r, AtImmediateError op))
    | EventIterator aiterator => while_running extensions op aiterator true
    end).

(** An exception that escapes the body of an async generator. *)
Definition asyncgen_raises (e : exn) : exn :=
  match e with
  | StopIteration => RuntimeError "async generator raised StopIteration"
  | StopAsyncIteration => RuntimeError "async generator raised StopAsyncIteration"
  | _ => e
  end.

(** The rest of the [async with extensions_runner.operation()] block once
    it has been entered: a [yield] suspends inside the block, the end of
    the body or a failure leaves it through [__aexit__]. *)
Definition in_operation (op : list WrappedHook)
    (body : M (option (result * agen_state))) : M (step agen_state) := fun w =>
  match body w with
  | (w1, Ok (Some (r, s))) => (emit (Emitted r) w1, Ok (Yielded r s))
  | (w1, Ok None) =>
      let '(_, w2, r') := __aexit__ Operation op w1 in
      match r' with
      | Some e' => (w2, Raise (asyncgen_raises e'))
      | None => (w2, Ok Exhausted)
      end
  | (w1, Raise e) =>
      let '(_, w2, r') := __aexit__ Operation op w1 in
      match r' with
      | Some e' => (w2, Raise (asyncgen_raises e'))
      | None => (w2, Raise (asyncgen_raises e))
      end
  end.

(** Lines 49-59: from the first [__anext__] up to the first [yield]. *)
Definition start (sub : subscription) : M (step agen_state) := fun w =>
  let extensions := sub_extensions sub in
  match new_phase_runner Operation extensions w with
  | (w1, Raise e) => (w1, Raise (asyncgen_raises e))
  | (w1, Ok hooks) =>
      let '(op, w2, r) := __aenter__ Operation hooks w1 in
      match r with
      | Some e => (w2, Raise (asyncgen_raises e))
      | None =>
          in_operation op (
            initial_error ← _parse_and_validate_async extensions
                              (sub_parse sub) (sub_validate sub);
            match initial_error with
            | Some err =>
                d ← get_extensions_results extensions;
                r ← _handle_execution_result extensions
                      (Result (r_class err) (data err) (errors err) d);
                mret (Some (r, AtInitialError op))
            | None => subscribe_block sub op
            end) w2
      end
  end.

(** [asyncgen.__anext__()] for the generator [_subscribe(...)]. *)
Definition _subscribe (sub : subscription) (s : agen_state) : M (step agen_state) :=
  match s with
  | NotStarted => start sub
  | AtInitialError op => in_operation op (subscribe_block sub op)
  | AtImmediateError op => in_operation op (mret None)
  | AtEvent op aiterator running =>
      in_operation op
        (in_try (sub_extensions sub) op
           (while_running (sub_extensions sub) op aiterator running))
  | AtHookError op => in_operation op (mret None)
  | Finished => mret Exhausted
  end.

(** [asyncgen.aclose()]: [GeneratorExit] is raised at the [yield] the
    generator is suspended at.  It is not an [Exception], so the handler of
    line 117 lets it through, and every [yield] is outside the executing
    scope: only [__aexit__] of the operation runner runs. *)
Definition aclose (s : agen_state) : M unit := fun w =>
  match s with
  | NotStarted | Finished => (w, Ok tt)
  | AtInitialError op | AtImmediateError op | AtEvent op _ _ | AtHookError op =>
      let '(_, w1, r) := __aexit__ Operation op w in
      match r with
      | Some e => (w1, Raise (asyncgen_raises e))
      | None => (w1, Ok tt)
      end
  end.

(** What [subscribe] returns: the pre-execution error, or the generator
    [_wrapper()], not started yet, with its free variables [first] and
    [asyncgen]. *)
Inductive SubscriptionResult :=
| PreError (first : result)
| Stream (first : result) (asyncgen : agen_state).

(** [subscribe] (lines 129-158). *)
Definition subscribe (sub : subscription) : M SubscriptionResult :=
  st ← _subscribe sub NotStarted;
  match st with
  | Exhausted => raise StopAsyncIteration
  | Yielded first asyncgen =>
      if decide (r_class first = PreExecutionError) then
        _ ← aclose asyncgen;
        mret (PreError first)
      else mret (Stream first asyncgen)
  end.

(** The suspension points of [_wrapper] (lines 153-156): before its first
    call, and at one of its two [yield], where what remains is the loop
    over [asyncgen]. *)
Inductive wrapper_state :=
| WrapperNotStarted (first : result) (asyncgen : agen_state)
| InAsyncFor (asyncgen : agen_state)
| WrapperFinished.

(** [__anext__] of the generator [_wrapper()] of [subscribe]. *)
Definition _wrapper (sub : subscription) (s : wrapper_state) : M (step wrapper_state) :=
  match s with
  | WrapperNotStarted first asyncgen => mret (Yielded first (InAsyncFor asyncgen))
  | InAsyncFor asyncgen => fun w =>
      match _subscribe sub asyncgen w with
      | (w1, Ok (Yielded result asyncgen')) =>
          (w1, Ok (Yielded result (InAsyncFor asyncgen')))
      | (w1, Ok Exhausted) => (w1, Ok Exhausted)
      | (w1, Raise e) => (w1, Raise (asyncgen_raises e))
      end
  | WrapperFinished => mret Exhausted
  end.

(** A consumer that iterates an async generator to its end with
    [async for], making at most [fuel] calls of [__anext__]. *)
Inductive drained :=
| Completed (rs : list result)
| Failed (rs : list result) (e : exn)
| OutOfFuel (rs : list result).

Definition emitted_before (r : result) (d : drained) : drained :=
  match d with
  | Completed rs => Completed (r :: rs)
  | Failed rs e => Failed (r :: rs) e
  | OutOfFuel rs => OutOfFuel (r :: rs)
  end.

Fixpoint async_for {state : Type} (anext : state -> M (step state)) (fuel : nat)
    (s : state) (w : world) : world * drained :=
  match fuel with
  | 0 => (w, OutOfFuel [])
  | S fuel' =>
      match anext s w with
      | (w1, Raise e) => (w1, Failed [] e)
      | (w1, Ok Exhausted) => (w1, Completed [])
      | (w1, Ok (Yielded r s')) =>
          let '(w2, d) := async_for anext fuel' s' w1 in (w2, emitted_before r d)
      end
  end.

(** Iterating [_subscribe(...)] from the suspension point [s]. *)
Definition drain (fuel : nat) (sub : subscription) (s : agen_state) (w : world)
  : world * drained :=
  async_for (_subscribe sub) fuel s w.
(** * Definitions used by the statements *)

(** The effects of the next advance of a generator and the generator it
    leaves; neither depends on the completion signal. *)
Definition next_effects (g : generator) : list effect := (gen_next StopIteration g).1.2.
Definition next_generator (g : generator) : generator := (gen_next StopIteration g).1.1.

(** A wrapper after one advance. *)
Definition advanced (h : WrappedHook) : WrappedHook :=
  with_hook h (next_generator (initialized_hook h)).

(** The effects of the first and of the second advance of a wrapper. *)
Definition first_step (h : WrappedHook) : list effect :=
  next_effects (initialized_hook h).
Definition second_step (h : WrappedHook) : list effect :=
  next_effects (initialized_hook (advanced h)).

(** The completion signal a wrapper's advance raises. *)
Definition stop_of (h : WrappedHook) : exn :=
  if is_async h then StopAsyncIteration else StopIteration.

Definition advance_of (m : mode) :=
  match m with
  | Blocking => advance_sync
  | Suspending => advance_async
  end.

(** A wrapper steps cleanly when its first advance reaches a suspension
    point and its second one does not fail: its code reaches a second
    suspension point or its end, and raises nothing. *)
Definition steps_cleanly (h : WrappedHook) : bool :=
  match initialized_hook h with
  | [] => false
  | s1 :: rest =>
      match seg_how s1 with
      | SYield =>
          match rest with
          | [] => true
          | s2 :: _ =>
              match seg_how s2 with
              | SRaise _ => false
              | _ => true
              end
          end
      | _ => false
      end
  end.

(** All wrappers performing the effects [effs] says they perform, in the
    order of the list. *)
Definition perform_all (p : phase) (effs : WrappedHook -> list effect)
    (hooks : list WrappedHook) (w : world) : world :=
  foldl (fun w h => perform p (ext_name (extension h)) (effs h) w) w hooks.

(** The log entries of one step of a wrapper. *)
Definition step_events (p : phase) (effs : WrappedHook -> list effect)
    (h : WrappedHook) : list event :=
  map (HookEffect p (ext_name (extension h))) (effs h).

(** Whether the phase runner of [p] gets a wrapper for [ext]. *)
Definition defines_hook (p : phase) (ext : Extension) : bool :=
  match (get_hook p ext).2 with
  | Ok (Some _) => true
  | _ => false
  end.

(** ** Sample extensions and contexts *)

Definition no_hook : phase -> hook_fn := fun _ => DefaultHook.
Definition no_legacy : phase -> option callable := fun _ => None.

(** [def hook(self): observe(before); yield; observe(after)] *)
Definition two_step (before after : string) : generator :=
  [Segment [Observe before] SYield; Segment [Observe after] SReturn].

(** An extension with such a hook for every phase, blocking or not, and no
    [get_results]. *)
Definition tracing (name : string) (suspending : bool) : Extension :=
  {| ext_name := name;
     new_style := fun _ =>
       if suspending
       then AsyncGeneratorFunction (two_step (name +:+ ".before") (name +:+ ".after"))
       else GeneratorFunction (two_step (name +:+ ".before") (name +:+ ".after"));
     legacy_start := no_legacy;
     legacy_end := no_legacy;
     get_results := DefaultGetResults |}.

(** An extension that only contributes results. *)
Definition reporting (name : string) (fn : get_results_fn) : Extension :=
  {| ext_name := name;
     new_style := no_hook;
     legacy_start := no_legacy;
     legacy_end := no_legacy;
     get_results := fn |}.

Definition empty_context : ExecutionContext :=
  {| graphql_document := None; extensions_results := ∅ |}.

Definition fresh_world : world := World empty_context [].

(** ** Results aggregation in the words of the specification *)

Definition returns_normally (ext : Extension) : bool :=
  match returned ext with
  | inr _ => true
  | inl _ => false
  end.

Definition contribution (ext : Extension) : gmap string string :=
  match returned ext with
  | inr d => d
  | inl _ => ∅
  end.

(** The returned mappings merged in registration order, a later extension
    overwriting the keys of the earlier ones. *)
Definition merge_results (extensions : list Extension) : gmap string string :=
  foldl (fun merged ext => contribution ext ∪ merged) ∅ extensions.

(** The calls of [get_results] the aggregation makes: one for every extension
    that overrides it, in registration order. *)
Definition results_events (extensions : list Extension) : list event :=
  map (fun ext => GotResults (ext_name ext))
      (List.filter _implments_get_rseults extensions).

Definition is_warning (ev : event) : Prop :=
  match ev with
  | Warned _ => True
  | _ => False
  end.

(** An extension with a new-style hook for every phase and, for the
    executing phase only, a legacy start method as well. *)
Definition conflicted : Extension :=
  {| ext_name := "C";
     new_style := fun _ => GeneratorFunction (two_step "C.before" "C.after");
     legacy_start := fun p =>
       match p with
       | Executing => Some (Callable false [Observe "C.legacy"] None)
       | _ => None
       end;
     legacy_end := no_legacy;
     get_results := DefaultGetResults |}.

(** ** The new-style equivalent of a legacy pair, in the words of the
    specification *)

(** Calling a method that may be absent: what it does, and the exception it
    raises if it does. *)
Definition run_callable (f : option callable) : list effect * option exn :=
  match f with
  | Some c => (c_effects c, c_raises c)
  | None => ([], None)
  end.

(** The single generator whose code before its checkpoint is [on_start]
    and whose code after it is [on_end]. *)
Definition single_generator (on_start on_end : option callable) : generator :=
  [ Segment (run_callable on_start).1
            (match (run_callable on_start).2 with Some e => SRaise e | None => SYield end);
    Segment (run_callable on_end).1
            (match (run_callable on_end).2 with Some e => SRaise e | None => SReturn end) ].

(** The extension that defines this generator as its new-style hook for
    the phase [p], declared [async] when one of the two methods is a
    coroutine function, in place of the legacy pair of [ext]. *)
Definition modernised (p : phase) (ext : Extension) : Extension :=
  let on_start := legacy_start ext p in
  let on_end := legacy_end ext p in
  {| ext_name := ext_name ext;
     new_style := fun q =>
       if decide (q = p) then
         if iscoroutinefunction on_start || iscoroutinefunction on_end
         then AsyncGeneratorFunction (single_generator on_start on_end)
         else GeneratorFunction (single_generator on_start on_end)
       else new_style ext q;
     legacy_start := fun q => if decide (q = p) then None else legacy_start ext q;
     legacy_end := fun q => if decide (q = p) then None else legacy_end ext q;
     get_results := get_results ext |}.

(** Entering a scope and leaving it again: [with runner: pass]. *)
Definition run_scope (m : mode) (p : phase) (hooks : list WrappedHook) (w : world)
  : world * option exn :=
  let '(hooks1, w1, r) := scope_enter m p hooks w in
  match r with
  | Some e => (w1, Some e)
  | None => let '(_, w2, r') := scope_exit m p hooks1 w1 in (w2, r')
  end.

(** Two wrappers that cannot be told apart by a phase runner. *)
Definition alike (h h' : WrappedHook) : Prop :=
  initialized_hook h = initialized_hook h'
  /\ is_async h = is_async h'
  /\ ext_name (extension h) = ext_name (extension h').

(** An extension with a legacy pair for the parsing phase, whose end method
    is a coroutine function. *)
Definition legacy_parsing : Extension :=
  {| ext_name := "L";
     new_style := no_hook;
     legacy_start := fun p =>
       match p with
       | Parsing => Some (Callable false [Observe "L.start"] None)
       | _ => None
       end;
     legacy_end := fun p =>
       match p with
       | Parsing => Some (Callable true [Observe "L.end"] None)
       | _ => None
       end;
     get_results := DefaultGetResults |}.

(** ** Scopes whose wrappers step cleanly *)

(** The wrappers the runner of phase [p] is built with. *)
Definition wrappers (p : phase) (extensions : list Extension) : list WrappedHook :=
  match (init_hooks p extensions).2 with
  | Ok hooks => hooks
  | Raise _ => []
  end.

(** The runner of [p] can be built and each of its wrappers steps cleanly. *)
Definition clean_scope (p : phase) (extensions : list Extension) : bool :=
  match (init_hooks p extensions).2 with
  | Ok hooks => forallb steps_cleanly hooks
  | Raise _ => false
  end.

(** What the hooks log while the scope of [p] is entered, and while it is
    left. *)
Definition entry_events (p : phase) (extensions : list Extension) : list event :=
  (init_hooks p extensions).1
  ++ flat_map (step_events p first_step) (wrappers p extensions).

Definition exit_events (p : phase) (extensions : list Extension) : list event :=
  flat_map (step_events p second_step) (wrappers p extensions).

(** The world after the scope of [p] has been entered from [w], and after
    it has been left from [w]. *)
Definition enter_world (p : phase) (extensions : list Extension) (w : world) : world :=
  emit (Entered p)
    (perform_all p first_step (wrappers p extensions)
       (World (ctx w) (log w ++ (init_hooks p extensions).1))).

Definition exit_world (p : phase) (extensions : list Extension) (w : world) : world :=
  emit (Exited p)
    (perform_all p first_step (map advanced (wrappers p extensions)) w).

(** The world after the aggregation of the results, and the result a
    handled result becomes. *)
Definition results_world (extensions : list Extension) (w : world) : world :=
  World (ctx w) (log w ++ results_events extensions).

Definition handled (extensions : list Extension) (r : result) (w : world) : result :=
  Result (r_class r) (data r) (errors r)
         (extensions_results (ctx w) ∪ merge_results extensions).

(** The world after lines 93-106 of one iteration of the loop. *)
Definition reset_world (w : world) : world :=
  World {| graphql_document := graphql_document (ctx w); extensions_results := ∅ |}
        (log w ++ [ResetExtensionsResults]).

Definition iteration_world (extensions : list Extension) (w : world) : world :=
  exit_world Executing extensions
    (emit Pulled (enter_world Executing extensions (reset_world w))).

(** The result one pull is turned into, and whether the loop goes on after
    it; [None] is the end of the loop. *)
Definition origin_of (item : pull) : option (result * bool) :=
  match item with
  | Event r => Some (r, true)
  | PullRaises e =>
      if decide (e = StopAsyncIteration) then None
      else Some (Result ExecutionResult None [_coerce_error e] ∅, false)
  end.

(** A result without its [extensions]. *)
Definition plain (r : result) : result_class * option string * list GraphQLError :=
  (r_class r, data r, errors r).

(** Counting log entries. *)
Fixpoint count (f : event -> bool) (l : list event) : nat :=
  match l with
  | [] => 0
  | ev :: l' => (if f ev then 1 else 0) + count f l'
  end.

Definition is_entered (p : phase) (ev : event) : bool :=
  match ev with
  | Entered q => bool_decide (q = p)
  | _ => false
  end.

Definition is_exited (p : phase) (ev : event) : bool :=
  match ev with
  | Exited q => bool_decide (q = p)
  | _ => false
  end.

Definition is_emitted (ev : event) : bool :=
  match ev with
  | Emitted _ => true
  | _ => false
  end.

Definition is_reset (ev : event) : bool :=
  match ev with
  | ResetExtensionsResults => true
  | _ => false
  end.

(** Log entries that belong to the executing part of the driver. *)
Definition in_executing (ev : event) : bool :=
  match ev with
  | HookEffect Executing _ _ | Entered Executing | Exited Executing
  | Subscribed | Pulled | ResetExtensionsResults => true
  | _ => false
  end.

(** What one iteration of the loop logs before the results are aggregated
    (lines 93-106). *)
Definition iteration_events (extensions : list Extension) : list event :=
  [ResetExtensionsResults]
  ++ entry_events Executing extensions ++ [Entered Executing; Pulled]
  ++ exit_events Executing extensions ++ [Exited Executing].

(** The world after the parsing scope around a call of the parser, which
    attaches the document it returns to the context, and after the
    validation scope around a call of the validator. *)
Definition attach_document (document : option string) (w : world) : world :=
  match document with
  | Some d =>
      World {| graphql_document := Some d;
               extensions_results := extensions_results (ctx w) |} (log w)
  | None => w
  end.

Definition parsing_world (extensions : list Extension) (document : option string)
    (w : world) : world :=
  exit_world Parsing extensions
    (attach_document document
       (emit ParserCalled (enter_world Parsing extensions w))).

Definition validation_world (extensions : list Extension) (w : world) : world :=
  exit_world Validation extensions
    (emit ValidatorCalled (enter_world Validation extensions w)).

(** What these scopes log. *)
Definition parsing_events (extensions : list Extension) : list event :=
  entry_events Parsing extensions ++ [Entered Parsing; ParserCalled]
  ++ exit_events Parsing extensions ++ [Exited Parsing].

Definition validation_events (extensions : list Extension) : list event :=
  entry_events Validation extensions ++ [Entered Validation; ValidatorCalled]
  ++ exit_events Validation extensions ++ [Exited Validation].

(** The world in which the loop starts: the operation scope entered, the
    document parsed and validated, the first executing scope entered and
    left around the call of [original_subscribe]. *)
Definition parsed_world (extensions : list Extension) (document : string)
    (w : world) : world :=
  validation_world extensions (parsing_world extensions (Some document) w).

Definition subscribed_world (extensions : list Extension) (document : string)
    (w : world) : world :=
  exit_world Executing extensions
    (emit Subscribed
       (enter_world Executing extensions
          (parsed_world extensions document (enter_world Operation extensions w)))).

Definition subscribed_events (extensions : list Extension) : list event :=
  entry_events Operation extensions ++ [Entered Operation]
  ++ parsing_events extensions ++ validation_events extensions
  ++ entry_events Executing extensions ++ [Entered Executing; Subscribed]
  ++ exit_events Executing extensions ++ [Exited Executing].

(** The errors parsing and validation give, if they give any: those of the
    parser, or those of the validator when there is a document to
    validate. *)
Definition initial_errors (sub : subscription) : option (list GraphQLError) :=
  match sub_parse sub with
  | SyntaxErrors errs => Some errs
  | Document _ =>
      match sub_validate sub with
      | Invalid errs => Some errs
      | _ => None
      end
  | ParserRaises _ => None
  end.

(** What parsing and validation log when their hooks step cleanly. *)
Definition parse_validate_events (sub : subscription) : list event :=
  parsing_events (sub_extensions sub)
  ++ match sub_parse sub with
     | Document _ => validation_events (sub_extensions sub)
     | _ => []
     end.

(** Event iterators: the one whose first pulls are those of a list and
    whose later pulls are those of [rest], and the one that is exhausted.
    An iterator starts with the pulls of a list when its first pulls do what
    the list says. *)
Fixpoint followed_by (pulls : list pull) (rest : nat -> pull) (n : nat) : pull :=
  match pulls with
  | [] => rest n
  | item :: pulls' =>
      match n with
      | 0 => item
      | S n' => followed_by pulls' rest n'
      end
  end.

Definition exhausted : nat -> pull := fun _ => PullRaises StopAsyncIteration.

Definition starts_with (pulls : list pull) (aiterator : nat -> pull) : Prop :=
  forall i item, pulls !! i = Some item -> aiterator i = item.

(** The results a consumer received, put in front of what it receives
    next. *)
Definition emitted_all_before (rs : list result) (d : drained) : drained :=
  foldr emitted_before d rs.


(** Log entries written by user code or by the construction of a runner:
    none of them marks a step of the driver. *)
Definition is_quiet (ev : event) : bool :=
  match ev with
  | HookEffect _ _ _ | Warned _ | GotResults _ => true
  | _ => false
  end.

(** A subscription to a source that gives the listed pulls and is then
    exhausted, over a document that parses and is valid, and a sample of
    what such a source yields. *)
Definition subscription_to (extensions : list Extension) (events : list pull)
  : subscription :=
  {| sub_extensions := extensions;
     sub_parse := Document "subscription { ticks }";
     sub_validate := Valid;
     sub_source := inr (EventIterator (followed_by events exhausted)) |}.

Definition tick (n : string) : result :=
  Result OriginalExecutionResult (Some n) [] ∅.

(** The log of [w'] continues the log of [w] with entries that do not
    belong to the executing part of the driver. *)
Definition calm (w w' : world) : Prop :=
  exists l, log w' = log w ++ l /\ Forall (fun ev => in_executing ev = false) l.

(** * Definitions used by the further properties *)

(** The extension defines both a legacy-style and a new-style hook for the
    phase [p]. *)
Definition conflicts (p : phase) (ext : Extension) : Prop :=
  (legacy_start ext p <> None \/ legacy_end ext p <> None)
  /\ new_style ext p <> DefaultHook.

(** The extension defines nothing for the phase [p]: no legacy method, and
    the hook it inherits. *)
Definition defines_nothing (p : phase) (ext : Extension) : Prop :=
  legacy_start ext p = None /\ legacy_end ext p = None
  /\ new_style ext p = DefaultHook.

(** What a runner raises when the wrapper's advance raised [e]: the
    exception itself, or what it becomes when it leaves a coroutine. *)
Definition raised_by (m : mode) (e : exn) : exn :=
  match m with
  | Blocking => e
  | Suspending => coroutine_raises e
  end.

(** The base class itself, registered as an extension. *)
Definition base_extension (name : string) : Extension :=
  {| ext_name := name;
     new_style := no_hook;
     legacy_start := no_legacy;
     legacy_end := no_legacy;
     get_results := DefaultGetResults |}.

(** An extension whose hook for every phase is a plain function. *)
Definition single_shot (name : string) (coroutine : bool) : Extension :=
  {| ext_name := name;
     new_style := fun _ => PlainCallable (Callable coroutine [Observe (name +:+ ".called")] None);
     legacy_start := no_legacy;
     legacy_end := no_legacy;
     get_results := DefaultGetResults |}.

(** An extension whose [get_results] raises. *)
Definition failing_results (name : string) (e : exn) : Extension :=
  reporting name (SyncGetResults (inl e)).

(** Further steps of the driver to count in a log. *)
Definition is_pulled (ev : event) : bool :=
  match ev with
  | Pulled => true
  | _ => false
  end.

Definition is_subscribed (ev : event) : bool :=
  match ev with
  | Subscribed => true
  | _ => false
  end.

(** The scope of [p] cannot be entered: the construction of its runner
    raises [e], or the advance of one of its wrappers does. *)
Definition entry_fails (p : phase) (extensions : list Extension) (e : exn) : Prop :=
  (init_hooks p extensions).2 = Raise e
  \/ exists hooks,
       (init_hooks p extensions).2 = Ok hooks
       /\ forall w, (__aenter__ p hooks w).2 = Some e.

(** The log of [w'] continues the log of [w] with entries written by user
    code or by the construction of a runner only. *)
Definition quietly (w w' : world) : Prop :=
  exists l, log w' = log w ++ l /\ Forall (fun ev => is_quiet ev = true) l.

(** An extension whose executing hook raises before it yields. *)
Definition failing_on_execute (name : string) (e : exn) : Extension :=
  {| ext_name := name;
     new_style := fun p =>
       match p with
       | Executing => GeneratorFunction [Segment [Observe (name +:+ ".before")] (SRaise e)]
       | _ => DefaultHook
       end;
     legacy_start := no_legacy;
     legacy_end := no_legacy;
     get_results := DefaultGetResults |}.

(** A consumer that takes at most [n] values from the generator and then
    closes it. *)
Fixpoint take_and_close (n : nat) (sub : subscription) (s : agen_state) (w : world)
  : world * drained :=
  match n with
  | 0 =>
      match aclose s w with
      | (w', Ok _) => (w', Completed [])
      | (w', Raise e) => (w', Failed [] e)
      end
  | S n' =>
      match _subscribe sub s w with
      | (w1, Raise e) => (w1, Failed [] e)
      | (w1, Ok Exhausted) => (w1, Completed [])
      | (w1, Ok (Yielded r s')) =>
          let '(w2, d) := take_and_close n' sub s' w1 in (w2, emitted_before r d)
      end
  end.

(** One of the first [n] pulls of the iterator raises, be it the signal of
    its exhaustion or a failure. *)
Fixpoint stops_within (n : nat) (aiterator : nat -> pull) : bool :=
  match n with
  | 0 => false
  | S n' =>
      match aiterator 0 with
      | PullRaises _ => true
      | Event _ => stops_within n' (after_pull aiterator)
      end
  end.

(** The generator, suspended at [s], yields at most [m] more values. *)
Definition yields_at_most (sub : subscription) (m : nat) (s : agen_state) : Prop :=
  match s with
  | NotStarted =>
      exists n, m = S n /\ 0 < n
        /\ forall aiterator, sub_source sub = inr (EventIterator aiterator) ->
                             stops_within n aiterator = true
  | AtInitialError _ =>
      0 < m
      /\ forall aiterator, sub_source sub = inr (EventIterator aiterator) ->
                           stops_within m aiterator = true
  | AtEvent _ aiterator running =>
      running = true -> stops_within m aiterator = true
  | AtImmediateError _ | AtHookError _ | Finished => True
  end.

(** The results a consumer received. *)
Definition received (d : drained) : list result :=
  match d with
  | Completed rs | Failed rs _ | OutOfFuel rs => rs
  end.

(** * strawberry/type.py and strawberry/types/types.py *)

Module TypeAlgebra.

(** [typing.TypeVar] objects and Python classes; two of them are the same
    object when they have the same name. *)
Definition TypeVar := string.
Definition pyclass := string.

(** The three concrete classes of containers. *)
Inductive container_class := StrawberryContainer | StrawberryList | StrawberryOptional.

(** Instances of [StrawberryContainer] and of [StrawberryTypeVar]; the
    [of_type] of a container is a [Union[StrawberryType, type]]: a class
    or, again, an instance. *)
#[warnings="-register-all"]
Inductive StrawberryType :=
| Container (cls : container_class) (of_type : pyclass + StrawberryType)
| StrawberryTypeVar (type_var : TypeVar).

(** What [copy_with] raises. *)
Inductive error :=
| KeyError (type_var : TypeVar)      (* [type_var_map[self.type_var]] *)
| Raised (what : string).            (* raised by the definition of a class *)

Section Methods.
(** [has_type_definition] is imported from types/types.py, which does not
    define it, and the [__strawberry_definition__] objects it guards are
    not among the sources either: what they answer is taken as given.
    [has_type_definition x] is the test itself,
    [definition_is_generic x] and [definition_copy_with x] are
    [x.__strawberry_definition__.is_generic] and [.copy_with] of a
    definition, which is a [StrawberryType] as [TypeDefinition] is, and
    [parameters_of x] is [getattr(x, "__parameters__", None)], empty where
    the attribute is missing or falsy. *)
Variable has_type_definition : pyclass + StrawberryType -> bool.
Variable definition_is_generic : pyclass + StrawberryType -> bool.
Variable definition_copy_with :
  pyclass + StrawberryType -> gmap TypeVar (pyclass + StrawberryType)
  -> error + (pyclass + StrawberryType).
Variable parameters_of : pyclass + StrawberryType -> list TypeVar.

(** [type_params] (lines 88-99 and 160-162). *)
Fixpoint type_params (self : StrawberryType) : list TypeVar :=
  match self with
  | StrawberryTypeVar type_var => [type_var]
  | Container _ of_type =>
      if has_type_definition of_type then parameters_of of_type
      else
        match of_type with
        | inr t => type_params t
        | inl _ => []
        end
  end.

(** [is_generic] (lines 118-128 and 153-155). *)
Fixpoint is_generic (self : StrawberryType) : bool :=
  match self with
  | StrawberryTypeVar _ => true
  | Container _ of_type =>
      if has_type_definition of_type then definition_is_generic of_type
      else
        match of_type with
        | inr t => is_generic t
        | inl _ => false
        end
  end.

(** [has_generic] (lines 130-133 and 157-158). *)
Fixpoint has_generic (self : StrawberryType) (type_var : TypeVar) : bool :=
  match self with
  | StrawberryTypeVar v => bool_decide (v = type_var)
  | Container _ of_type =>
      match of_type with
      | inr t => has_generic t type_var
      | inl _ => false
      end
  end.

(** [copy_with] (lines 101-116 and 148-151). *)
Fixpoint copy_with (self : StrawberryType)
    (type_var_map : gmap TypeVar (pyclass + StrawberryType))
  : error + (pyclass + StrawberryType) :=
  match self with
  | StrawberryTypeVar type_var =>
      match type_var_map !! type_var with
      | Some x => inr x
      | None => inl (KeyError type_var)
      end
  | Container cls of_type =>
      let of_type_copy :=
        if has_type_definition of_type then
          if definition_is_generic of_type
          then definition_copy_with of_type type_var_map
          else inr of_type
        else
          match of_type with
          | inr t => if is_generic t then copy_with t type_var_map else inr of_type
          | inl _ => inr of_type
          end in
      match of_type_copy with
      | inr x => inr (inr (Container cls x))
      | inl e => inl e
      end
  end.
End Methods.

(** Replacing the type variable a chain of containers ends in by what the
    mapping gives for it, and keeping the containers. *)
Fixpoint substitute (self : StrawberryType)
    (type_var_map : gmap TypeVar (pyclass + StrawberryType))
  : error + (pyclass + StrawberryType) :=
  match self with
  | StrawberryTypeVar type_var =>
      match type_var_map !! type_var with
      | Some x => inr x
      | None => inl (KeyError type_var)
      end
  | Container cls (inl c) => inr (inr (Container cls (inl c)))
  | Container cls (inr t) =>
      match substitute t type_var_map with
      | inr x => inr (inr (Container cls x))
      | inl e => inl e
      end
  end.

(** The test that finds a type definition on no object. *)
Definition undefined_everywhere : pyclass + StrawberryType -> bool := fun _ => false.

(** [TypeDefinition.fields] hold [StrawberryField] objects, of which
    [get_field_by_name] reads the [python_name], which may be [None]. *)
Record StrawberryField := {
  python_name : option string;
  graphql_name : option string
}.

(** [get_field_by_name] (types.py, lines 271-275): the field, or the
    message of the [NameError]. *)
Fixpoint get_field_by_name (fields : list StrawberryField) (name : string)
  : string + StrawberryField :=
  match fields with
  | [] => inl ("field <" +:+ name +:+ "> not found")
  | field :: rest =>
      if bool_decide (python_name field = Some name) then inr field
      else get_field_by_name rest name
  end.

End TypeAlgebra.

(** * Properties *)

(** ** Generators and single advances *)

Lemma gen_next_parts stop g :
  (gen_next stop g).1 = (next_generator g, next_effects g).
Proof.
  unfold next_generator, next_effects.
  destruct g as [|s rest]; [done|]. simpl. by destruct (seg_how s).
Qed.

Lemma advance_of_eq m p h w :
  (m = Blocking -> is_async h = false) ->
  advance_of m p h w =
    (advanced h, perform p (ext_name (extension h)) (first_step h) w,
     (gen_next (stop_of h) (initialized_hook h)).2).
Proof.
  intros Hm. unfold advanced, first_step, stop_of.
  destruct m; simpl.
  - unfold advance_sync. rewrite Hm by done.
    pose proof (gen_next_parts StopIteration (initialized_hook h)) as E.
    destruct (gen_next StopIteration (initialized_hook h)) as [[g effs] r].
    simpl in E. by inversion E.
  - unfold advance_async. destruct (is_async h).
    + pose proof (gen_next_parts StopAsyncIteration (initialized_hook h)) as E.
      destruct (gen_next StopAsyncIteration (initialized_hook h)) as [[g effs] r].
      simpl in E. by inversion E.
    + pose proof (gen_next_parts StopIteration (initialized_hook h)) as E.
      destruct (gen_next StopIteration (initialized_hook h)) as [[g effs] r].
      simpl in E. by inversion E.
Qed.

Lemma run_hooks_eq m p is_exit hooks w :
  run_hooks m p is_exit hooks w =
    let '(hooks', w', r) := for_each_hook (advance_of m p) is_exit hooks w in
    (hooks', w', match m with Blocking => r | Suspending => coroutine_raises <$> r end).
Proof.
  destruct m; simpl; unfold run_hooks_sync, run_hooks_async; [|done].
  by destruct (for_each_hook _ _ _ _) as [[? ?] ?].
Qed.

Lemma clean_first_advance h stop :
  steps_cleanly h = true -> (gen_next stop (initialized_hook h)).2 = None.
Proof.
  unfold steps_cleanly. destruct (initialized_hook h) as [|s1 rest]; [done|].
  simpl. by destruct (seg_how s1).
Qed.

Lemma clean_second_advance h stop e :
  steps_cleanly h = true -> is_stop stop = true ->
  (gen_next stop (initialized_hook (advanced h))).2 = Some e -> is_stop e = true.
Proof.
  unfold steps_cleanly, advanced, next_generator. simpl.
  destruct (initialized_hook h) as [|s1 rest]; [done|]. simpl.
  destruct (seg_how s1); try done. simpl.
  destruct rest as [|s2 rest]; simpl.
  - intros _ Hs [= <-]. done.
  - destruct (seg_how s2); simpl; intros H Hs [= <-]; done.
Qed.

Lemma is_stop_stop_of h : is_stop (stop_of h) = true.
Proof. unfold stop_of. by destruct (is_async h). Qed.

(** ** The loop over the wrappers *)

Lemma apply_effects_document effs c :
  graphql_document (foldl (fun c eff => apply_effect eff c) c effs) = graphql_document c.
Proof.
  revert c. induction effs as [|eff effs IH]; intros c; simpl; [done|].
  rewrite IH. by destruct eff.
Qed.

Lemma perform_all_log p effs hooks w :
  log (perform_all p effs hooks w) = log w ++ flat_map (step_events p effs) hooks.
Proof.
  revert w. induction hooks as [|h hooks IH]; intros w; simpl.
  - by rewrite app_nil_r.
  - unfold perform_all in *. simpl. rewrite IH. simpl.
    by rewrite <- app_assoc.
Qed.

Lemma perform_all_document p effs hooks w :
  graphql_document (ctx (perform_all p effs hooks w)) = graphql_document (ctx w).
Proof.
  revert w. induction hooks as [|h hooks IH]; intros w; simpl; [done|].
  unfold perform_all in *. simpl. rewrite IH. simpl.
  apply apply_effects_document.
Qed.

Lemma for_each_hook_clean advance is_exit g p effs hooks w :
  Forall (fun h => forall w, exists r,
            advance h w = (g h, perform p (ext_name (extension h)) (effs h) w, r)
            /\ forall e, r = Some e -> ctx_suppresses is_exit e = true) hooks ->
  for_each_hook advance is_exit hooks w
  = (map g hooks, perform_all p effs hooks w, None).
Proof.
  intros H. revert w. induction H as [|h hooks Hh _ IH]; intros w; simpl; [done|].
  destruct (Hh w) as (r & -> & Hr).
  destruct r as [e|].
  - rewrite (Hr e eq_refl). by rewrite IH.
  - by rewrite IH.
Qed.

(** Entering a scope whose wrappers step cleanly. *)
Lemma scope_enter_clean m p hooks w :
  Forall (fun h => steps_cleanly h = true) hooks ->
  (m = Blocking -> Forall (fun h => is_async h = false) hooks) ->
  scope_enter m p hooks w
  = (map advanced hooks, emit (Entered p) (perform_all p first_step hooks w), None).
Proof.
  intros Hc Hm. unfold scope_enter. rewrite run_hooks_eq.
  rewrite (for_each_hook_clean _ false advanced p first_step).
  - by destruct m.
  - apply Forall_forall. intros h Hin w'.
    eexists. split.
    + apply advance_of_eq. intros ->.
      specialize (Hm eq_refl). rewrite Forall_forall in Hm. by apply Hm.
    + rewrite Forall_forall in Hc. rewrite (clean_first_advance h) by by apply Hc.
      done.
Qed.

(** Leaving it again. *)
Lemma scope_exit_clean m p hooks w :
  Forall (fun h => steps_cleanly h = true) hooks ->
  (m = Blocking -> Forall (fun h => is_async h = false) hooks) ->
  scope_exit m p (map advanced hooks) w
  = (map advanced (map advanced hooks),
     emit (Exited p) (perform_all p first_step (map advanced hooks) w), None).
Proof.
  intros Hc Hm. unfold scope_exit. rewrite run_hooks_eq.
  rewrite (for_each_hook_clean _ true advanced p first_step).
  - by destruct m.
  - apply Forall_forall. intros h1 Hin w'.
    apply list_elem_of_fmap in Hin as (h & -> & Hin).
    eexists. split.
    + apply advance_of_eq. intros ->.
      specialize (Hm eq_refl). rewrite Forall_forall in Hm. simpl. by apply Hm.
    + intros e He. unfold ctx_suppresses. simpl.
      rewrite Forall_forall in Hc.
      eapply (clean_second_advance h); [by apply Hc| |exact He].
      apply (is_stop_stop_of (advanced h)).
Qed.

Lemma step_events_advanced p hooks :
  flat_map (step_events p first_step) (map advanced hooks)
  = flat_map (step_events p second_step) hooks.
Proof.
  induction hooks as [|h hooks IH]; simpl; [done|]. by rewrite IH.
Qed.

(** ** Registration order (C1) *)

Lemma from_legacy_extension ext on_start on_end :
  extension (from_legacy ext on_start on_end) = ext.
Proof. unfold from_legacy. by destruct (_ || _). Qed.

Lemma from_callable_extension ext c : extension (from_callable ext c) = ext.
Proof. unfold from_callable. by destruct (is_coroutine c). Qed.

Lemma get_hook_extension p ext warned h :
  get_hook p ext = (warned, Ok (Some h)) -> extension h = ext.
Proof.
  unfold get_hook.
  destruct (bool_decide _ || bool_decide _); simpl.
  - destruct (bool_decide _); [done|].
    intros [= _ <-]. apply from_legacy_extension.
  - destruct (new_style ext p); try done.
    + by intros [= _ <-].
    + by intros [= _ <-].
    + intros [= _ <-]. apply from_callable_extension.
Qed.

Lemma init_hooks_order p extensions hooks :
  (init_hooks p extensions).2 = Ok hooks ->
  map extension hooks = List.filter (defines_hook p) extensions.
Proof.
  revert hooks. induction extensions as [|ext rest IH]; intros hooks; simpl.
  - by intros [= <-].
  - unfold defines_hook.
    destruct (get_hook p ext) as [warned [hook|e]] eqn:E; simpl; [|done].
    destruct (init_hooks p rest) as [warned' [hooks'|e]]; simpl; [|done].
    intros [= <-]. specialize (IH hooks' eq_refl).
    destruct hook as [h|]; simpl; [|done].
    by rewrite (get_hook_extension _ _ _ _ E), IH.
Qed.

(** C1. In blocking and in suspend-capable mode and for every phase,
    entering the phase runner built from a list of extensions advances the
    wrappers once, in the order the extensions were registered in, and
    leaving it advances them a second time in that same order, not in the
    reverse one: the log grows by the first steps of the wrappers and then
    by their second steps, both listed in registration order. *)
Theorem hooks_fire_in_registration_order
    (m : mode) (p : phase) (extensions : list Extension)
    (hooks : list WrappedHook) (w : world) :
  (init_hooks p extensions).2 = Ok hooks ->
  Forall (fun h => steps_cleanly h = true) hooks ->
  (m = Blocking -> Forall (fun h => is_async h = false) hooks) ->
  exists hooks1 w1 hooks2 w2,
    map extension hooks = List.filter (defines_hook p) extensions /\
    scope_enter m p hooks w = (hooks1, w1, None) /\
    log w1 = log w ++ flat_map (step_events p first_step) hooks ++ [Entered p] /\
    scope_exit m p hooks1 w1 = (hooks2, w2, None) /\
    log w2 = log w1 ++ flat_map (step_events p second_step) hooks ++ [Exited p].
Proof.
  intros Hinit Hclean Hmode.
  eexists _, _, _, _.
  split; [by apply init_hooks_order|].
  split; [by apply scope_enter_clean|].
  split; [simpl; by rewrite perform_all_log, <- app_assoc|].
  split; [by apply scope_exit_clean|].
  simpl. rewrite !perform_all_log. simpl.
  rewrite ?perform_all_log, step_events_advanced. by rewrite <- !app_assoc.
Qed.

Lemma hooks_fire_in_registration_order_witness :
  exists hooks1 w1 hooks2 w2,
    scope_enter Blocking Executing
      (map (fun ext =>
              {| extension := ext;
                 initialized_hook := two_step (ext_name ext +:+ ".before")
                                              (ext_name ext +:+ ".after");
                 is_async := false |})
           [tracing "A" false; tracing "B" false]) fresh_world
    = (hooks1, w1, None) /\
    log w1 = [HookEffect Executing "A" (Observe "A.before");
              HookEffect Executing "B" (Observe "B.before");
              Entered Executing] /\
    scope_exit Blocking Executing hooks1 w1 = (hooks2, w2, None) /\
    log w2 = log w1 ++ [HookEffect Executing "A" (Observe "A.after");
                        HookEffect Executing "B" (Observe "B.after");
                        Exited Executing].
Proof.
  destruct (hooks_fire_in_registration_order Blocking Executing
              [tracing "A" false; tracing "B" false]
              (map (fun ext =>
                      {| extension := ext;
                         initialized_hook := two_step (ext_name ext +:+ ".before")
                                                      (ext_name ext +:+ ".after");
                         is_async := false |})
                   [tracing "A" false; tracing "B" false])
              fresh_world)
    as (hooks1 & w1 & hooks2 & w2 & _ & H1 & H2 & H3 & H4).
  - reflexivity.
  - repeat constructor.
  - intros _. repeat constructor.
  - exists hooks1, w1, hooks2, w2. repeat split; assumption.
Defined.

(** ** Suspend-capable code on the blocking paths (C4) *)

Lemma for_each_hook_app advance is_exit hooks1 hooks2 w :
  for_each_hook advance is_exit (hooks1 ++ hooks2) w
  = let '(hooks1', w', r) := for_each_hook advance is_exit hooks1 w in
    match r with
    | Some e => (hooks1' ++ hooks2, w', Some e)
    | None =>
        let '(hooks2', w'', r') := for_each_hook advance is_exit hooks2 w' in
        (hooks1' ++ hooks2', w'', r')
    end.
Proof.
  revert w. induction hooks1 as [|h hooks1 IH]; intros w; simpl.
  - by destruct (for_each_hook advance is_exit hooks2 w) as [[? ?] ?].
  - destruct (advance h w) as [[h' w'] r].
    assert (Hrec :
      (let '(rest', w'', r') := for_each_hook advance is_exit (hooks1 ++ hooks2) w' in
       (h' :: rest', w'', r'))
      = (let '(hooks1', w'0, r0) :=
           (let '(rest', w'', r') := for_each_hook advance is_exit hooks1 w' in
            (h' :: rest', w'', r')) in
         match r0 with
         | Some e => (hooks1' ++ hooks2, w'0, Some e)
         | None =>
             let '(hooks2', w'', r') := for_each_hook advance is_exit hooks2 w'0 in
             (hooks1' ++ hooks2', w'', r')
         end)).
    { rewrite IH.
      destruct (for_each_hook advance is_exit hooks1 w') as [[l1 w1] [e1|]]; [done|].
      by destruct (for_each_hook advance is_exit hooks2 w1) as [[? ?] ?]. }
    destruct r as [e|]; [|exact Hrec].
    destruct (ctx_suppresses is_exit e); [exact Hrec|done].
Qed.

Lemma get_extensions_results_sync_from_app exts1 exts2 d w :
  get_extensions_results_sync_from (exts1 ++ exts2) d w
  = match get_extensions_results_sync_from exts1 d w with
    | (w', Ok d') => get_extensions_results_sync_from exts2 d' w'
    | (w', Raise e) => (w', Raise e)
    end.
Proof.
  revert d w. induction exts1 as [|ext exts1 IH]; intros d w; simpl; [done|].
  destruct (_implments_get_rseults ext); [|apply IH].
  destruct (get_results_is_coroutine ext); [done|].
  unfold call_get_results, mbind, M_bind, tell. simpl.
  destruct (returned ext) as [e|d0]; simpl; [done|apply IH].
Qed.

(** C4. A suspend-capable wrapper is never advanced by the blocking phase
    runner, on entry or on exit: when the loop reaches it, it raises the
    usage error saying that the hook failed to complete synchronously, and
    the call never completes (the only other way out is a failure of an
    earlier wrapper).  The blocking results aggregation does the same with
    a suspend-capable [get_results]: it raises its usage error in place of
    calling it. *)
Theorem blocking_paths_reject_suspending
    (p : phase) (is_exit : bool) (before after : list WrappedHook)
    (hook : WrappedHook) (exts_before exts_after : list Extension)
    (ext : Extension) (d : gmap string string) (w : world) :
  is_async hook = true ->
  get_results_is_coroutine ext = true ->
  run_hooks_sync p is_exit (before ++ hook :: after) w
  = (let '(before', w', failed) := run_hooks_sync p is_exit before w in
     (before' ++ hook :: after, w',
      Some (default (RuntimeError (sync_failure_message p hook)) failed)))
  /\ get_extensions_results_sync_from (exts_before ++ ext :: exts_after) d w
     = (let '(w', o) := get_extensions_results_sync_from exts_before d w in
        (w', match o with
             | Ok _ => Raise (RuntimeError async_results_message)
             | Raise e => Raise e
             end)).
Proof.
  intros Hasync Hres. split.
  - unfold run_hooks_sync. rewrite for_each_hook_app.
    destruct (for_each_hook (advance_sync p) is_exit before w) as [[l1 w1] [e|]];
      [done|].
    simpl. unfold advance_sync. rewrite Hasync.
    unfold ctx_suppresses. simpl. by rewrite andb_false_r.
  - rewrite get_extensions_results_sync_from_app.
    destruct (get_extensions_results_sync_from exts_before d w) as [w1 [d1|e]];
      [|done].
    simpl. rewrite Hres. unfold _implments_get_rseults, get_results_is_coroutine in *.
    by destruct (get_results ext).
Qed.

Lemma blocking_paths_reject_suspending_witness :
  run_hooks_sync Parsing true
    [ {| extension := tracing "A" false;
         initialized_hook := two_step "A.before" "A.after"; is_async := false |};
      {| extension := tracing "B" true;
         initialized_hook := two_step "B.before" "B.after"; is_async := true |} ]
    fresh_world
  = ([ {| extension := tracing "A" false;
          initialized_hook := [Segment [Observe "A.after"] SReturn];
          is_async := false |};
       {| extension := tracing "B" true;
          initialized_hook := two_step "B.before" "B.after"; is_async := true |} ],
     World empty_context [HookEffect Parsing "A" (Observe "A.before")],
     Some (RuntimeError
             "Extension hook B.on_parse failed to complete synchronously."))
  /\ get_extensions_results_sync
       [reporting "A" (SyncGetResults (inr ∅)); reporting "B" (AsyncGetResults (inr ∅))]
       fresh_world
     = (World empty_context [GotResults "A"],
        Raise (RuntimeError "Cannot use async extension hook during sync execution")).
Proof.
  pose proof (blocking_paths_reject_suspending Parsing true
    [ {| extension := tracing "A" false;
         initialized_hook := two_step "A.before" "A.after"; is_async := false |} ]
    []
    {| extension := tracing "B" true;
       initialized_hook := two_step "B.before" "B.after"; is_async := true |}
    [reporting "A" (SyncGetResults (inr ∅))] []
    (reporting "B" (AsyncGetResults (inr ∅))) ∅ fresh_world
    eq_refl eq_refl) as [H1 H2].
  split.
  - exact H1.
  - exact H2.
Defined.

(** ** Completion signals and other failures (C5) *)

(** C5. On exit, a wrapper whose advance raises the completion signal is
    passed over and the wrappers after it are advanced as if it had not
    raised; any other failure of an advance, on entry or on exit, is what
    the runner raises, unchanged, and the wrappers after it are left as
    they were. *)
Theorem exit_suppresses_completion_only
    (m : mode) (p : phase) (hook hook' : WrappedHook) (rest : list WrappedHook)
    (w w' : world) (e : exn) :
  advance_of m p hook w = (hook', w', Some e) ->
  (is_stop e = true ->
     run_hooks m p true (hook :: rest) w
     = (let '(rest', w'', r) := run_hooks m p true rest w' in
        (hook' :: rest', w'', r)))
  /\ (is_stop e = false ->
      forall is_exit,
        run_hooks m p is_exit (hook :: rest) w = (hook' :: rest, w', Some e)).
Proof.
  intros Hadv. split.
  - intros Hstop. rewrite !run_hooks_eq. simpl. rewrite Hadv.
    unfold ctx_suppresses. rewrite Hstop. simpl.
    by destruct (for_each_hook (advance_of m p) true rest w') as [[? ?] ?].
  - intros Hstop is_exit. rewrite run_hooks_eq. simpl. rewrite Hadv.
    unfold ctx_suppresses. rewrite Hstop, andb_false_r.
    destruct m; [done|]. simpl. by destruct e.
Qed.

Lemma exit_suppresses_completion_only_witness :
  run_hooks Blocking Operation true
    [ {| extension := tracing "A" false; initialized_hook := []; is_async := false |};
      {| extension := tracing "B" false;
         initialized_hook := [Segment [Observe "B.after"] SReturn]; is_async := false |} ]
    fresh_world
  = (let '(rest', w'', r) :=
       run_hooks Blocking Operation true
         [ {| extension := tracing "B" false;
              initialized_hook := [Segment [Observe "B.after"] SReturn];
              is_async := false |} ]
         fresh_world in
     ({| extension := tracing "A" false; initialized_hook := []; is_async := false |}
      :: rest', w'', r))
  /\ run_hooks Suspending Operation false
       [ {| extension := tracing "A" false;
            initialized_hook := [Segment [Observe "A.before"] (SRaise (UserException "boom"))];
            is_async := false |};
         {| extension := tracing "B" false;
            initialized_hook := two_step "B.before" "B.after"; is_async := false |} ]
       fresh_world
     = ([ {| extension := tracing "A" false; initialized_hook := []; is_async := false |};
          {| extension := tracing "B" false;
             initialized_hook := two_step "B.before" "B.after"; is_async := false |} ],
        World empty_context [HookEffect Operation "A" (Observe "A.before")],
        Some (UserException "boom")).
Proof.
  split.
  - refine (proj1 (exit_suppresses_completion_only Blocking Operation
      {| extension := tracing "A" false; initialized_hook := []; is_async := false |}
      {| extension := tracing "A" false; initialized_hook := []; is_async := false |}
      [ {| extension := tracing "B" false;
           initialized_hook := [Segment [Observe "B.after"] SReturn];
           is_async := false |} ]
      fresh_world fresh_world StopIteration eq_refl) eq_refl).
  - refine (proj2 (exit_suppresses_completion_only Suspending Operation
      {| extension := tracing "A" false;
         initialized_hook := [Segment [Observe "A.before"] (SRaise (UserException "boom"))];
         is_async := false |}
      {| extension := tracing "A" false; initialized_hook := []; is_async := false |}
      [ {| extension := tracing "B" false;
           initialized_hook := two_step "B.before" "B.after"; is_async := false |} ]
      fresh_world
      (World empty_context [HookEffect Operation "A" (Observe "A.before")])
      (UserException "boom") eq_refl) eq_refl false).
Defined.

(** ** Results aggregation (C2) *)

Lemma world_eta w : World (ctx w) (log w) = w.
Proof. by destruct w. Qed.

Lemma merge_results_from d extensions :
  foldl (fun merged ext => contribution ext ∪ merged) d extensions
  = merge_results extensions ∪ d.
Proof.
  unfold merge_results. revert d.
  induction extensions as [|ext rest IH] using rev_ind; intros d; simpl.
  - by rewrite (left_id_L ∅ (∪)).
  - rewrite !foldl_app. simpl. rewrite IH.
    by rewrite (assoc_L (∪)).
Qed.

Lemma merge_results_snoc extensions ext :
  merge_results (extensions ++ [ext]) = contribution ext ∪ merge_results extensions.
Proof. unfold merge_results. by rewrite foldl_app. Qed.

Lemma merge_results_later_wins before ext after k v :
  contribution ext !! k = Some v ->
  Forall (fun e => contribution e !! k = None) after ->
  merge_results (before ++ ext :: after) !! k = Some v.
Proof.
  intros Hk. induction after as [|e after IH] using rev_ind; intros Hafter.
  - rewrite merge_results_snoc. by apply lookup_union_Some_l.
  - apply Forall_app in Hafter as [Hafter He].
    apply Forall_cons in He as [He _].
    replace (before ++ ext :: after ++ [e]) with ((before ++ ext :: after) ++ [e])
      by (by rewrite <- app_assoc).
    rewrite merge_results_snoc, lookup_union_r by done. by apply IH.
Qed.

Lemma get_extensions_results_from_normal extensions d w :
  Forall (fun ext => returns_normally ext = true) extensions ->
  get_extensions_results_from extensions d w
  = (World (ctx w) (log w ++ results_events extensions),
     Ok (foldl (fun merged ext => contribution ext ∪ merged) d extensions)).
Proof.
  intros H. revert d w. unfold results_events.
  induction H as [|ext rest Hext _ IH]; intros d w; simpl.
  - by rewrite app_nil_r, world_eta.
  - unfold returns_normally, contribution in *.
    destruct (_implments_get_rseults ext) eqn:Himpl; simpl.
    + unfold call_get_results, mbind, M_bind, tell. simpl.
      destruct (returned ext) as [e|d0]; [done|]. simpl.
      rewrite IH. simpl. by rewrite <- app_assoc.
    + rewrite IH. unfold returned, _implments_get_rseults in *.
      destruct (get_results ext); try done. by rewrite (left_id_L ∅ (∪)).
Qed.

Lemma get_extensions_results_sync_from_normal extensions d w :
  Forall (fun ext => returns_normally ext = true) extensions ->
  Forall (fun ext => get_results_is_coroutine ext = false) extensions ->
  get_extensions_results_sync_from extensions d w
  = (World (ctx w) (log w ++ results_events extensions),
     Ok (foldl (fun merged ext => contribution ext ∪ merged) d extensions)).
Proof.
  intros H. revert d w. unfold results_events.
  induction H as [|ext rest Hext _ IH]; intros d w Hsync; simpl.
  - by rewrite app_nil_r, world_eta.
  - apply Forall_cons in Hsync as [Hs Hsync].
    unfold returns_normally, contribution in *.
    destruct (_implments_get_rseults ext) eqn:Himpl; simpl.
    + rewrite Hs. unfold call_get_results, mbind, M_bind, tell. simpl.
      destruct (returned ext) as [e|d0]; [done|]. simpl.
      rewrite IH by done. simpl. by rewrite <- app_assoc.
    + rewrite IH by done. unfold returned, _implments_get_rseults in *.
      destruct (get_results ext); try done. by rewrite (left_id_L ∅ (∪)).
Qed.

Lemma get_extensions_results_normal extensions w :
  Forall (fun ext => returns_normally ext = true) extensions ->
  get_extensions_results extensions w
  = (World (ctx w) (log w ++ results_events extensions),
     Ok (extensions_results (ctx w) ∪ merge_results extensions)).
Proof.
  intros H. unfold get_extensions_results, in_coroutine, mbind, M_bind.
  rewrite get_extensions_results_from_normal by done. simpl.
  by rewrite merge_results_from, (right_id_L ∅ (∪)).
Qed.

(** C2, amended.  When the [get_results] of the extensions return, the
    suspend-capable aggregation calls it on every extension that overrides
    the default, in registration order, merges what they return with later
    extensions overwriting earlier ones, and overlays the per-iteration
    mapping of the execution context, whose value wins for every key it
    has.  The blocking aggregation, when no [get_results] is
    suspend-capable, makes the same calls and returns the same merge, with
    no overlay. *)
Theorem results_are_merged_in_registration_order
    (extensions : list Extension) (w : world) :
  Forall (fun ext => returns_normally ext = true) extensions ->
  get_extensions_results extensions w
  = (World (ctx w) (log w ++ results_events extensions),
     Ok (extensions_results (ctx w) ∪ merge_results extensions))
  /\ (forall k v,
        extensions_results (ctx w) !! k = Some v ->
        (extensions_results (ctx w) ∪ merge_results extensions) !! k = Some v)
  /\ (forall before ext after k v,
        extensions = before ++ ext :: after ->
        contribution ext !! k = Some v ->
        Forall (fun e => contribution e !! k = None) after ->
        merge_results extensions !! k = Some v)
  /\ (Forall (fun ext => get_results_is_coroutine ext = false) extensions ->
      get_extensions_results_sync extensions w
      = (World (ctx w) (log w ++ results_events extensions),
         Ok (merge_results extensions))).
Proof.
  intros H. split; [by apply get_extensions_results_normal|].
  split; [intros k v Hk; by apply lookup_union_Some_l|].
  split; [intros before ext after k v ->; apply merge_results_later_wins|].
  intros Hsync. unfold get_extensions_results_sync.
  by rewrite get_extensions_results_sync_from_normal.
Qed.

Lemma results_are_merged_in_registration_order_witness :
  get_extensions_results
    [reporting "A" (SyncGetResults (inr {["k" := "A"]}));
     reporting "B" (AsyncGetResults (inr {["k" := "B"]}))]
    (World {| graphql_document := None; extensions_results := {["j" := "context"]} |} [])
  = (World {| graphql_document := None; extensions_results := {["j" := "context"]} |}
       [GotResults "A"; GotResults "B"],
     Ok ({["j" := "context"]}
         ∪ merge_results
             [reporting "A" (SyncGetResults (inr {["k" := "A"]}));
              reporting "B" (AsyncGetResults (inr {["k" := "B"]}))])).
Proof.
  refine (proj1 (results_are_merged_in_registration_order
    [reporting "A" (SyncGetResults (inr {["k" := "A"]}));
     reporting "B" (AsyncGetResults (inr {["k" := "B"]}))]
    (World {| graphql_document := None; extensions_results := {["j" := "context"]} |} [])
    _)).
  repeat constructor.
Defined.

(** C2 as stated fails for the blocking aggregation: it never reads the
    execution context, so where an extension and the per-iteration mapping
    both have the key ["k"], the value of the extension is returned. *)
Lemma blocking_results_overlay_counterexample :
  exists w' d,
    get_extensions_results_sync
      [reporting "A" (SyncGetResults (inr {["k" := "extension"]}))]
      (World {| graphql_document := None;
                extensions_results := {["k" := "context"]} |} [])
    = (w', Ok d)
    /\ extensions_results (ctx w') !! "k" = Some "context"
    /\ d !! "k" = Some "extension".
Proof. eexists _, _. split; [reflexivity|]. split; reflexivity. Qed.

(** ** Conflicting hook styles (C3) *)

Lemma get_hook_raises p ext warned e :
  get_hook p ext = (warned, Raise e) ->
  warned = [] /\ e = RuntimeError (conflict_message p).
Proof.
  unfold get_hook.
  destruct (bool_decide _ || bool_decide _); simpl.
  - destruct (bool_decide _); [by intros [= <- <-]|done].
  - by destruct (new_style ext p).
Qed.

Lemma get_hook_warned p ext : Forall is_warning (get_hook p ext).1.
Proof.
  unfold get_hook.
  destruct (bool_decide _ || bool_decide _); simpl.
  - destruct (bool_decide _); simpl; [done|]. by repeat constructor.
  - by destruct (new_style ext p).
Qed.

Lemma init_hooks_warned p extensions : Forall is_warning (init_hooks p extensions).1.
Proof.
  induction extensions as [|ext rest IH]; simpl; [done|].
  pose proof (get_hook_warned p ext) as Hw.
  destruct (get_hook p ext) as [warned [hook|e]]; simpl in *; [|done].
  destruct (init_hooks p rest) as [warned' [hooks|e]]; simpl in *;
    by apply Forall_app.
Qed.

Lemma get_hook_conflict p ext :
  legacy_start ext p <> None \/ legacy_end ext p <> None ->
  new_style ext p <> DefaultHook ->
  get_hook p ext = ([], Raise (RuntimeError (conflict_message p))).
Proof.
  intros Hlegacy Hnew. unfold get_hook.
  assert (bool_decide (legacy_start ext p ≠ None)
          || bool_decide (legacy_end ext p ≠ None) = true) as ->.
  { destruct Hlegacy as [H|H].
    - by rewrite (bool_decide_eq_true_2 _ H).
    - rewrite (bool_decide_eq_true_2 _ H). by rewrite orb_true_r. }
  simpl. rewrite bool_decide_eq_true_2; [done|].
  by destruct (new_style ext p).
Qed.

Lemma init_hooks_conflict p extensions ext :
  ext ∈ extensions ->
  legacy_start ext p <> None \/ legacy_end ext p <> None ->
  new_style ext p <> DefaultHook ->
  (init_hooks p extensions).2 = Raise (RuntimeError (conflict_message p)).
Proof.
  intros Hin Hlegacy Hnew.
  induction extensions as [|ext' rest IH]; [by apply elem_of_nil in Hin|].
  simpl. destruct (get_hook p ext') as [warned [hook|e]] eqn:E.
  - apply elem_of_cons in Hin as [->|Hin].
    + rewrite get_hook_conflict in E by done. done.
    + specialize (IH Hin).
      destruct (init_hooks p rest) as [warned' [hooks|e]]; simpl in *; [done|].
      done.
  - apply get_hook_raises in E as [_ ->]. done.
Qed.

(** C3, amended.  An extension that defines both a legacy-style and a
    new-style hook for a phase makes the construction of the runner of that
    phase raise a configuration error: nothing but deprecation warnings has
    happened by then, no wrapper of that phase is advanced and the body of
    the scope does not run. *)
Theorem conflicting_hooks_fail_runner_construction
    (p : phase) (extensions : list Extension) (ext : Extension)
    (A : Type) (body : M A) (w : world) :
  ext ∈ extensions ->
  legacy_start ext p <> None \/ legacy_end ext p <> None ->
  new_style ext p <> DefaultHook ->
  (init_hooks p extensions).2 = Raise (RuntimeError (conflict_message p))
  /\ exists warned,
       Forall is_warning warned
       /\ async_with p extensions body w
          = (World (ctx w) (log w ++ warned),
             Raise (RuntimeError (conflict_message p))).
Proof.
  intros Hin Hlegacy Hnew.
  pose proof (init_hooks_conflict p extensions ext Hin Hlegacy Hnew) as Hc.
  split; [done|].
  exists (init_hooks p extensions).1. split; [apply init_hooks_warned|].
  unfold async_with, new_phase_runner.
  destruct (init_hooks p extensions) as [warned r]. simpl in *. by rewrite Hc.
Qed.

Lemma conflicting_hooks_fail_runner_construction_witness :
  (init_hooks Executing [tracing "A" false; conflicted]).2
  = Raise (RuntimeError (conflict_message Executing))
  /\ exists warned,
       Forall is_warning warned
       /\ async_with Executing [tracing "A" false; conflicted] (tell Subscribed) fresh_world
          = (World (ctx fresh_world) (log fresh_world ++ warned),
             Raise (RuntimeError (conflict_message Executing))).
Proof.
  apply (conflicting_hooks_fail_runner_construction Executing
           [tracing "A" false; conflicted] conflicted unit (tell Subscribed) fresh_world).
  - apply list_elem_of_In. right. left. reflexivity.
  - left. discriminate.
  - discriminate.
Defined.

(** C3 as stated fails: nothing is checked when the extensions are
    registered.  The extension [conflicted] conflicts for the executing
    phase only; the operation runner built from it is entered, parsing and
    validation run, and only then does the construction of the executing
    runner fail, inside the [try] of the driver, which turns the failure
    into an emitted result. *)
Lemma conflict_found_after_operation_started_counterexample :
  (init_hooks Executing [conflicted]).2
  = Raise (RuntimeError (conflict_message Executing))
  /\ (exists hooks hooks1,
        init_hooks Operation [conflicted] = ([], Ok hooks)
        /\ __aenter__ Operation hooks fresh_world
           = (hooks1,
              World empty_context
                [HookEffect Operation "C" (Observe "C.before"); Entered Operation],
              None))
  /\ exists r,
       drain 2 {| sub_extensions := [conflicted];
                  sub_parse := Document "doc";
                  sub_validate := Valid;
                  sub_source := inr (EventIterator exhausted) |}
             NotStarted fresh_world
       = (World {| graphql_document := Some "doc"; extensions_results := ∅ |}
            [HookEffect Operation "C" (Observe "C.before");
             Entered Operation;
             HookEffect Parsing "C" (Observe "C.before");
             Entered Parsing;
             ParserCalled;
             HookEffect Parsing "C" (Observe "C.after");
             Exited Parsing;
             HookEffect Validation "C" (Observe "C.before");
             Entered Validation;
             ValidatorCalled;
             HookEffect Validation "C" (Observe "C.after");
             Exited Validation;
             Emitted r;
             HookEffect Operation "C" (Observe "C.after");
             Exited Operation],
          Completed [r])
       /\ errors r = [_coerce_error (RuntimeError (conflict_message Executing))].
Proof.
  split; [reflexivity|]. split.
  - eexists _, _. split; reflexivity.
  - eexists. split; reflexivity.
Qed.

(** The message of the configuration error is the same text for every
    phase: the literal that holds [{self.HOOK_NAME}] is not formatted. *)
Lemma conflict_message_ignores_phase p q : conflict_message p = conflict_message q.
Proof. reflexivity. Qed.

(** ** Legacy pairs (C9) *)

Lemma advance_of_alike m p h h' w :
  alike h h' ->
  exists h1 h1' w' r,
    advance_of m p h w = (h1, w', r)
    /\ advance_of m p h' w = (h1', w', r)
    /\ alike h1 h1'.
Proof.
  intros (Hg & Ha & Hn).
  destruct m; simpl; unfold advance_sync, advance_async, sync_failure_message;
    rewrite <- Ha, <- Hg, <- Hn.
  - destruct (is_async h) eqn:Ea.
    + eexists _, _, _, _. repeat split; try done. congruence.
    + destruct (gen_next StopIteration (initialized_hook h)) as [[g effs] r].
      eexists _, _, _, _. repeat split; simpl; congruence.
  - destruct (is_async h) eqn:Ea.
    + destruct (gen_next StopAsyncIteration (initialized_hook h)) as [[g effs] r].
      eexists _, _, _, _. repeat split; simpl; congruence.
    + destruct (gen_next StopIteration (initialized_hook h)) as [[g effs] r].
      eexists _, _, _, _. repeat split; simpl; congruence.
Qed.

Lemma for_each_hook_alike m p is_exit hooks hooks' w :
  Forall2 alike hooks hooks' ->
  exists l l' w' r,
    for_each_hook (advance_of m p) is_exit hooks w = (l, w', r)
    /\ for_each_hook (advance_of m p) is_exit hooks' w = (l', w', r)
    /\ Forall2 alike l l'.
Proof.
  intros H. revert w. induction H as [|h h' hooks hooks' Hh Hrest IH]; intros w.
  - eexists _, _, _, _. repeat split; done.
  - simpl. destruct (advance_of_alike m p h h' w Hh) as (h1 & h1' & w' & r & -> & -> & H1).
    destruct (IH w') as (l & l' & w'' & r' & E & E' & Hl).
    destruct r as [e|].
    + destruct (ctx_suppresses is_exit e).
      * rewrite E, E'. eexists _, _, _, _. repeat split; try done.
        by constructor.
      * eexists _, _, _, _. repeat split; try done. by constructor.
    + rewrite E, E'. eexists _, _, _, _. repeat split; try done.
      by constructor.
Qed.

Lemma run_hooks_alike m p is_exit hooks hooks' w :
  Forall2 alike hooks hooks' ->
  exists l l' w' r,
    run_hooks m p is_exit hooks w = (l, w', r)
    /\ run_hooks m p is_exit hooks' w = (l', w', r)
    /\ Forall2 alike l l'.
Proof.
  intros H.
  destruct (for_each_hook_alike m p is_exit hooks hooks' w H)
    as (l & l' & w' & r & E & E' & Hl).
  rewrite !run_hooks_eq, E, E'. eexists _, _, _, _. repeat split; done.
Qed.

Lemma run_scope_alike m p hooks hooks' w :
  Forall2 alike hooks hooks' -> run_scope m p hooks w = run_scope m p hooks' w.
Proof.
  intros H. unfold run_scope, scope_enter, scope_exit.
  destruct (run_hooks_alike m p false hooks hooks' w H)
    as (l & l' & w' & r & -> & -> & Hl).
  destruct r as [e|]; [done|].
  destruct (run_hooks_alike m p true l l' (emit (Entered p) w') Hl)
    as (l2 & l2' & w2 & r2 & -> & -> & _).
  by destruct r2.
Qed.

Lemma guarded_call_single on_start on_end :
  [guarded_call on_start SYield; guarded_call on_end SReturn]
  = single_generator on_start on_end.
Proof.
  unfold single_generator, guarded_call, run_callable.
  by destruct on_start, on_end.
Qed.

(** C9. An extension with only a legacy start/end pair for a phase gets a
    wrapper that runs the start method on its first advance and the end
    method on its second one; a phase runner driving it does exactly what
    it does with the wrapper of the equivalent new-style extension, whose
    single generator runs start, suspends, and runs end.  The legacy
    extension alone makes the construction record a deprecation warning,
    and its wrapper is suspend-capable exactly when the start or the end
    method is. *)
Theorem legacy_pair_behaves_like_generator (p : phase) (ext : Extension) :
  new_style ext p = DefaultHook ->
  legacy_start ext p <> None \/ legacy_end ext p <> None ->
  exists h h',
    get_hook p ext = ([Warned (DEPRECATION_MESSAGE p)], Ok (Some h))
    /\ get_hook p (modernised p ext) = ([], Ok (Some h'))
    /\ first_step h = (run_callable (legacy_start ext p)).1
    /\ ((run_callable (legacy_start ext p)).2 = None ->
        second_step h = (run_callable (legacy_end ext p)).1)
    /\ (is_async h = true <->
        iscoroutinefunction (legacy_start ext p) = true
        \/ iscoroutinefunction (legacy_end ext p) = true)
    /\ (forall m w, run_scope m p [h] w = run_scope m p [h'] w).
Proof.
  intros Hnew Hlegacy.
  set (on_start := legacy_start ext p). set (on_end := legacy_end ext p).
  exists {| extension := ext;
            initialized_hook := single_generator on_start on_end;
            is_async := iscoroutinefunction on_start || iscoroutinefunction on_end |}.
  exists {| extension := modernised p ext;
            initialized_hook := single_generator on_start on_end;
            is_async := iscoroutinefunction on_start || iscoroutinefunction on_end |}.
  split; [|split; [|split; [|split; [|split]]]].
  - unfold get_hook. fold on_start on_end. rewrite Hnew.
    assert (bool_decide (on_start ≠ None) || bool_decide (on_end ≠ None) = true) as ->.
    { destruct Hlegacy as [H|H].
      - by rewrite (bool_decide_eq_true_2 _ H).
      - rewrite (bool_decide_eq_true_2 _ H). by rewrite orb_true_r. }
    simpl. unfold from_legacy. rewrite guarded_call_single.
    by destruct (iscoroutinefunction on_start || iscoroutinefunction on_end).
  - unfold get_hook, modernised. simpl. fold on_start on_end.
    destruct (decide (p = p)) as [_|]; [|done]. simpl.
    by destruct (iscoroutinefunction on_start || iscoroutinefunction on_end).
  - unfold first_step, next_effects. simpl.
    by destruct (run_callable on_start).2.
  - unfold second_step, advanced, next_effects, next_generator. simpl.
    intros ->. simpl. by destruct (run_callable on_end).2.
  - simpl. rewrite orb_true_iff. done.
  - intros m w. apply run_scope_alike. repeat constructor.
Qed.

Lemma legacy_pair_behaves_like_generator_witness :
  exists h h',
    get_hook Parsing legacy_parsing
    = ([Warned "Event driven styled extensions for on_parsing_start or on_parsing_end are deprecated, use on_parse instead"],
       Ok (Some h))
    /\ get_hook Parsing (modernised Parsing legacy_parsing) = ([], Ok (Some h'))
    /\ first_step h = [Observe "L.start"]
    /\ second_step h = [Observe "L.end"]
    /\ is_async h = true
    /\ run_scope Suspending Parsing [h] fresh_world
       = run_scope Suspending Parsing [h'] fresh_world.
Proof.
  destruct (legacy_pair_behaves_like_generator Parsing legacy_parsing)
    as (h & h' & H1 & H2 & H3 & H4 & H5 & H6).
  - reflexivity.
  - left. discriminate.
  - exists h, h'.
    split; [exact H1|]. split; [exact H2|]. split; [exact H3|].
    split; [exact (H4 eq_refl)|].
    split; [apply H5; right; reflexivity|].
    apply H6.
Defined.

(** ** Clean scopes inside the driver *)

Lemma clean_scope_wrappers p extensions :
  clean_scope p extensions = true ->
  (init_hooks p extensions).2 = Ok (wrappers p extensions)
  /\ Forall (fun h => steps_cleanly h = true) (wrappers p extensions).
Proof.
  unfold clean_scope, wrappers.
  destruct (init_hooks p extensions).2 as [hooks|e]; [|done].
  intros H. split; [done|].
  apply Forall_forall. intros h Hin.
  rewrite forallb_forall in H. apply H. by apply list_elem_of_In.
Qed.

Lemma aenter_clean p extensions w :
  clean_scope p extensions = true ->
  __aenter__ p (wrappers p extensions) (World (ctx w) (log w ++ (init_hooks p extensions).1))
  = (map advanced (wrappers p extensions), enter_world p extensions w, None).
Proof.
  intros H. apply clean_scope_wrappers in H as [_ H].
  unfold __aenter__. by rewrite scope_enter_clean.
Qed.

Lemma aexit_clean p extensions w :
  clean_scope p extensions = true ->
  __aexit__ p (map advanced (wrappers p extensions)) w
  = (map advanced (map advanced (wrappers p extensions)), exit_world p extensions w, None).
Proof.
  intros H. apply clean_scope_wrappers in H as [_ H].
  unfold __aexit__. by rewrite scope_exit_clean.
Qed.

Lemma async_with_clean {A} p extensions (body : M A) w :
  clean_scope p extensions = true ->
  async_with p extensions body w
  = (let '(w3, o) := body (enter_world p extensions w) in
     (exit_world p extensions w3, o)).
Proof.
  intros H. unfold async_with, new_phase_runner.
  pose proof (clean_scope_wrappers _ _ H) as [Hinit _].
  destruct (init_hooks p extensions) as [warned r] eqn:E. simpl in Hinit. subst r.
  replace warned with (init_hooks p extensions).1 by (by rewrite E).
  rewrite aenter_clean by done.
  destruct (body (enter_world p extensions w)) as [w3 o].
  by rewrite aexit_clean.
Qed.

Lemma enter_world_log p extensions w :
  log (enter_world p extensions w) = log w ++ entry_events p extensions ++ [Entered p].
Proof.
  unfold enter_world, entry_events. simpl. rewrite perform_all_log. simpl.
  by rewrite <- !app_assoc.
Qed.

Lemma exit_world_log p extensions w :
  log (exit_world p extensions w) = log w ++ exit_events p extensions ++ [Exited p].
Proof.
  unfold exit_world, exit_events. simpl.
  rewrite perform_all_log, step_events_advanced. by rewrite <- !app_assoc.
Qed.

Lemma enter_world_document p extensions w :
  graphql_document (ctx (enter_world p extensions w)) = graphql_document (ctx w).
Proof. unfold enter_world. simpl. by rewrite perform_all_document. Qed.

Lemma exit_world_document p extensions w :
  graphql_document (ctx (exit_world p extensions w)) = graphql_document (ctx w).
Proof. unfold exit_world. simpl. by rewrite perform_all_document. Qed.

Lemma forallb_returns_normally extensions :
  forallb returns_normally extensions = true ->
  Forall (fun ext => returns_normally ext = true) extensions.
Proof.
  intros H. apply Forall_forall. intros ext Hin.
  rewrite forallb_forall in H. apply H. by apply list_elem_of_In.
Qed.

Lemma get_extensions_results_clean extensions w :
  forallb returns_normally extensions = true ->
  get_extensions_results extensions w
  = (results_world extensions w,
     Ok (extensions_results (ctx w) ∪ merge_results extensions)).
Proof.
  intros H. apply get_extensions_results_normal. by apply forallb_returns_normally.
Qed.

Lemma handle_execution_result_clean extensions r w :
  forallb returns_normally extensions = true ->
  _handle_execution_result extensions r w
  = (results_world extensions w, Ok (handled extensions r w)).
Proof.
  intros H. unfold _handle_execution_result, in_coroutine, mbind, M_bind.
  by rewrite get_extensions_results_clean.
Qed.

(** Event iterators that start with given pulls. *)
Lemma starts_with_cons item pulls aiterator :
  starts_with (item :: pulls) aiterator ->
  aiterator 0 = item /\ starts_with pulls (after_pull aiterator).
Proof.
  intros H. split.
  - by apply (H 0).
  - intros i it Hi. by apply (H (S i)).
Qed.

Lemma starts_with_app pulls1 pulls2 aiterator :
  starts_with (pulls1 ++ pulls2) aiterator ->
  starts_with pulls1 aiterator
  /\ starts_with pulls2 (fun n => aiterator (length pulls1 + n)).
Proof.
  revert aiterator. induction pulls1 as [|item pulls1 IH]; intros aiterator H.
  - split; [by intros i it Hi|exact H].
  - apply starts_with_cons in H as [H0 H]. apply IH in H as [H1 H2]. split.
    + intros [|i] it Hi; simpl in Hi; [by inversion Hi; subst|]. by apply H1.
    + exact H2.
Qed.

Lemma starts_with_followed_by pulls rest : starts_with pulls (followed_by pulls rest).
Proof.
  induction pulls as [|item pulls IH]; intros i it Hi; [done|].
  destruct i as [|i]; simpl in *; [by inversion Hi|]. by apply IH.
Qed.

(** One pull does not depend on the world it is made in. *)
Lemma pull_next_eq aiterator w :
  pull_next aiterator w
  = (emit Pulled w,
     Ok (match origin_of (aiterator 0) with
         | Some (r, running) => Got r running
         | None => Break
         end, after_pull aiterator)).
Proof.
  unfold pull_next, mbind, M_bind, tell. simpl.
  destruct (aiterator 0) as [r|e]; simpl; [done|].
  by destruct (decide (e = StopAsyncIteration)).
Qed.

(** One iteration of the loop that pulls an event or a failure. *)
Lemma while_running_item extensions op aiterator r running w :
  clean_scope Executing extensions = true ->
  forallb returns_normally extensions = true ->
  origin_of (aiterator 0) = Some (r, running) ->
  while_running extensions op aiterator true w
  = (results_world extensions (iteration_world extensions w),
     Ok (Some (handled extensions r (iteration_world extensions w),
               AtEvent op (after_pull aiterator) running))).
Proof.
  intros Hc Hr Hitem. unfold while_running, mbind, M_bind. simpl.
  rewrite async_with_clean by done. rewrite pull_next_eq, Hitem.
  fold (reset_world w). unfold mbind, M_bind.
  by rewrite handle_execution_result_clean.
Qed.

(** The iteration that finds the iterator exhausted. *)
Lemma while_running_exhausted extensions op aiterator w :
  clean_scope Executing extensions = true ->
  origin_of (aiterator 0) = None ->
  while_running extensions op aiterator true w = (iteration_world extensions w, Ok None).
Proof.
  intros Hc Hitem. unfold while_running, mbind, M_bind. simpl.
  rewrite async_with_clean by done. by rewrite pull_next_eq, Hitem.
Qed.

Lemma emit_log ev w : log (emit ev w) = log w ++ [ev].
Proof. done. Qed.

Lemma iteration_world_log extensions w :
  log (iteration_world extensions w)
  = log w ++ [ResetExtensionsResults]
    ++ entry_events Executing extensions ++ [Entered Executing; Pulled]
    ++ exit_events Executing extensions ++ [Exited Executing].
Proof.
  unfold iteration_world.
  rewrite exit_world_log, emit_log, enter_world_log. unfold reset_world. simpl.
  rewrite <- !app_assoc. simpl. by rewrite <- ?app_assoc.
Qed.

(** ** Parsing and validation *)

Lemma attach_document_log document w : log (attach_document document w) = log w.
Proof. by destruct document. Qed.

Lemma parsing_world_log extensions document w :
  log (parsing_world extensions document w) = log w ++ parsing_events extensions.
Proof.
  unfold parsing_world, parsing_events.
  rewrite exit_world_log, attach_document_log, emit_log, enter_world_log.
  rewrite <- !app_assoc. simpl. by rewrite <- ?app_assoc.
Qed.

Lemma validation_world_log extensions w :
  log (validation_world extensions w) = log w ++ validation_events extensions.
Proof.
  unfold validation_world, validation_events.
  rewrite exit_world_log, emit_log, enter_world_log.
  rewrite <- !app_assoc. simpl. by rewrite <- ?app_assoc.
Qed.

Lemma parsed_world_log extensions document w :
  log (parsed_world extensions document w)
  = log w ++ parsing_events extensions ++ validation_events extensions.
Proof.
  unfold parsed_world. by rewrite validation_world_log, parsing_world_log, <- app_assoc.
Qed.

Lemma parsed_world_document extensions document w :
  graphql_document (ctx (parsed_world extensions document w)) = Some document.
Proof.
  unfold parsed_world, validation_world, parsing_world.
  rewrite exit_world_document.
  change (ctx (emit ?ev ?w')) with (ctx w').
  by rewrite enter_world_document, exit_world_document.
Qed.

(** Parsing and validation when the hooks of both scopes step cleanly. *)
Lemma parse_and_validate_clean extensions parse validate w :
  clean_scope Parsing extensions = true ->
  clean_scope Validation extensions = true ->
  _parse_and_validate_async extensions parse validate w
  = match parse with
    | Document document =>
        let w1 := parsing_world extensions (Some document) w in
        match validate with
        | Valid => (validation_world extensions w1, Ok None)
        | Invalid errs =>
            (validation_world extensions w1,
             Ok (Some (Result PreExecutionError None errs ∅)))
        | ValidatorRaises e => (validation_world extensions w1, Raise e)
        end
    | SyntaxErrors errs =>
        (parsing_world extensions None w,
         Ok (Some (Result PreExecutionError None errs ∅)))
    | ParserRaises e => (parsing_world extensions None w, Raise e)
    end.
Proof.
  intros Hp Hv. unfold _parse_and_validate_async.
  unfold mbind at 1, M_bind at 1. rewrite async_with_clean by done.
  destruct parse as [document|errs|e]; cbv [mbind M_bind mret M_ret tell get_ctx set_ctx raise].
  - rewrite async_with_clean by done.
    by destruct validate.
  - done.
  - done.
Qed.

(** ** Steps of the driver *)

Section CleanSubscription.
Variable sub : subscription.
Let extensions := sub_extensions sub.
Let op := map advanced (wrappers Operation extensions).

Hypothesis clean_operation : clean_scope Operation extensions = true.
Hypothesis clean_parsing : clean_scope Parsing extensions = true.
Hypothesis clean_validation : clean_scope Validation extensions = true.
Hypothesis clean_executing : clean_scope Executing extensions = true.
Hypothesis results_return : forallb returns_normally extensions = true.

Lemma anext_item aiterator r running w :
  origin_of (aiterator 0) = Some (r, running) ->
  _subscribe sub (AtEvent op aiterator true) w
  = (emit (Emitted (handled extensions r (iteration_world extensions w)))
       (results_world extensions (iteration_world extensions w)),
     Ok (Yielded (handled extensions r (iteration_world extensions w))
                 (AtEvent op (after_pull aiterator) running))).
Proof using clean_executing results_return.
  intros Hitem. unfold _subscribe, in_operation, in_try, try_except.
  fold extensions. by rewrite (while_running_item _ _ _ r running).
Qed.

Lemma anext_exhausted aiterator w :
  origin_of (aiterator 0) = None ->
  _subscribe sub (AtEvent op aiterator true) w
  = (exit_world Operation extensions (iteration_world extensions w), Ok Exhausted).
Proof using clean_operation clean_executing.
  intros Hitem.
  unfold _subscribe, in_operation, in_try, try_except. fold extensions.
  rewrite while_running_exhausted by done.
  unfold op. by rewrite aexit_clean.
Qed.

Lemma anext_stopped aiterator w :
  _subscribe sub (AtEvent op aiterator false) w
  = (exit_world Operation extensions w, Ok Exhausted).
Proof using clean_operation.
  unfold _subscribe, in_operation, in_try, try_except, while_running, mret, M_ret.
  unfold op. by rewrite aexit_clean.
Qed.

(** The first call of the generator up to the end of the executing scope
    around [original_subscribe]. *)
Lemma start_to_source document w :
  sub_parse sub = Document document ->
  sub_validate sub = Valid ->
  _subscribe sub NotStarted w
  = in_operation op
      (in_try extensions op
         (fun w0 =>
            match sub_source sub with
            | inl e => (w0, Raise e)
            | inr (ImmediateResult errs) =>
                (_handle_execution_result extensions
                   (Result PreExecutionError None errs ∅)
                 ≫= fun r => mret (Some (r, AtImmediateError op))) w0
            | inr (EventIterator aiterator) =>
                while_running extensions op aiterator true w0
            end))
      (subscribed_world extensions document w).
Proof using clean_operation clean_parsing clean_validation clean_executing.
  intros Hparse Hvalid. unfold _subscribe, start, new_phase_runner. fold extensions.
  pose proof (clean_scope_wrappers _ _ clean_operation) as [Hinit _].
  destruct (init_hooks Operation extensions) as [warned o] eqn:E.
  simpl in Hinit. subst o.
  replace warned with (init_hooks Operation extensions).1 by (by rewrite E).
  rewrite aenter_clean by done. fold op.
  unfold in_operation.
  match goal with
  | |- match ?a with _ => _ end = match ?b with _ => _ end =>
      assert (a = b) as ->; [|done]
  end.
  unfold mbind at 1, M_bind at 1.
  rewrite parse_and_validate_clean, Hparse, Hvalid by done.
  cbv zeta. fold (parsed_world extensions document (enter_world Operation extensions w)).
  unfold subscribe_block. fold extensions.
  unfold in_try, try_except, mbind, M_bind.
  rewrite async_with_clean by done. unfold get_ctx at 1.
  rewrite enter_world_document, parsed_world_document. simpl.
  unfold tell, mret, M_ret, mbind, M_bind.
  fold (subscribed_world extensions document w).
  destruct (sub_source sub) as [e|[errs|aiterator]]; reflexivity.
Qed.

Lemma anext_start document aiterator w :
  sub_parse sub = Document document ->
  sub_validate sub = Valid ->
  sub_source sub = inr (EventIterator aiterator) ->
  _subscribe sub NotStarted w
  = _subscribe sub (AtEvent op aiterator true) (subscribed_world extensions document w).
Proof using clean_operation clean_parsing clean_validation clean_executing.
  intros Hparse Hvalid Hsrc.
  rewrite (start_to_source document w Hparse Hvalid), Hsrc. reflexivity.
Qed.

End CleanSubscription.

Lemma subscribed_world_log extensions document w :
  log (subscribed_world extensions document w)
  = log w ++ subscribed_events extensions.
Proof.
  unfold subscribed_world, subscribed_events.
  rewrite exit_world_log, emit_log, enter_world_log, parsed_world_log, enter_world_log.
  rewrite <- !app_assoc. simpl. by rewrite <- ?app_assoc.
Qed.

(** ** Counting the steps of the driver in the log *)

Lemma count_app f l1 l2 : count f (l1 ++ l2) = count f l1 + count f l2.
Proof. induction l1 as [|ev l1 IH]; simpl; [done|]. rewrite IH. lia. Qed.

Section Markers.
Variable f : event -> bool.
Hypothesis marker : forall ev, is_quiet ev = true -> f ev = false.

Lemma count_quiet l : Forall (fun ev => is_quiet ev = true) l -> count f l = 0.
Proof using marker.
  induction 1 as [|ev l Hev _ IH]; simpl; [done|].
  by rewrite (marker ev Hev), IH.
Qed.

Lemma step_events_quiet p effs hooks :
  Forall (fun ev => is_quiet ev = true) (flat_map (step_events p effs) hooks).
Proof using Type.
  induction hooks as [|h hooks IH]; simpl; [done|].
  apply Forall_app. split; [|done].
  unfold step_events. by apply Forall_map, Forall_true.
Qed.

Lemma entry_events_quiet p extensions :
  Forall (fun ev => is_quiet ev = true) (entry_events p extensions).
Proof using Type.
  unfold entry_events. apply Forall_app. split; [|apply step_events_quiet].
  eapply Forall_impl; [apply init_hooks_warned|]. by intros [].
Qed.

Lemma exit_events_quiet p extensions :
  Forall (fun ev => is_quiet ev = true) (exit_events p extensions).
Proof using Type. apply step_events_quiet. Qed.

Lemma results_events_quiet extensions :
  Forall (fun ev => is_quiet ev = true) (results_events extensions).
Proof using Type. unfold results_events. by apply Forall_map, Forall_true. Qed.

Lemma count_entry_events p extensions : count f (entry_events p extensions) = 0.
Proof using marker. apply count_quiet, entry_events_quiet. Qed.

Lemma count_results_events extensions : count f (results_events extensions) = 0.
Proof using marker. apply count_quiet, results_events_quiet. Qed.

Lemma count_exit_events p extensions : count f (exit_events p extensions) = 0.
Proof using marker. apply count_quiet, exit_events_quiet. Qed.

Lemma count_iteration_events extensions :
  count f (iteration_events extensions)
  = count f [ResetExtensionsResults; Entered Executing; Pulled; Exited Executing].
Proof using marker.
  unfold iteration_events.
  rewrite !count_app, count_entry_events, count_exit_events.
  simpl. lia.
Qed.

Lemma count_parsing_events extensions :
  count f (parsing_events extensions)
  = count f [Entered Parsing; ParserCalled; Exited Parsing].
Proof using marker.
  unfold parsing_events.
  rewrite !count_app, count_entry_events, count_exit_events.
  simpl. lia.
Qed.

Lemma count_validation_events extensions :
  count f (validation_events extensions)
  = count f [Entered Validation; ValidatorCalled; Exited Validation].
Proof using marker.
  unfold validation_events.
  rewrite !count_app, count_entry_events, count_exit_events.
  simpl. lia.
Qed.

Lemma count_subscribed_events extensions :
  count f (subscribed_events extensions)
  = count f [Entered Operation; Entered Parsing; ParserCalled; Exited Parsing;
             Entered Validation; ValidatorCalled; Exited Validation;
             Entered Executing; Subscribed; Exited Executing].
Proof using marker.
  unfold subscribed_events.
  rewrite !count_app, count_parsing_events, count_validation_events,
    !count_entry_events, count_exit_events.
  simpl. lia.
Qed.
End Markers.

Lemma is_entered_marker p ev : is_quiet ev = true -> is_entered p ev = false.
Proof. by destruct ev. Qed.
Lemma is_exited_marker p ev : is_quiet ev = true -> is_exited p ev = false.
Proof. by destruct ev. Qed.
Lemma is_emitted_marker ev : is_quiet ev = true -> is_emitted ev = false.
Proof. by destruct ev. Qed.
Lemma is_reset_marker ev : is_quiet ev = true -> is_reset ev = false.
Proof. by destruct ev. Qed.

(** ** Iterating a subscription *)

Lemma drain_S fuel sub s w :
  drain (S fuel) sub s w
  = match _subscribe sub s w with
    | (w1, Raise e) => (w1, Failed [] e)
    | (w1, Ok Exhausted) => (w1, Completed [])
    | (w1, Ok (Yielded r s')) =>
        let '(w2, d) := drain fuel sub s' w1 in (w2, emitted_before r d)
    end.
Proof. done. Qed.

Section CleanIteration.
Variable sub : subscription.
Let extensions := sub_extensions sub.
Let op := map advanced (wrappers Operation extensions).

Hypothesis clean_operation : clean_scope Operation extensions = true.
Hypothesis clean_parsing : clean_scope Parsing extensions = true.
Hypothesis clean_validation : clean_scope Validation extensions = true.
Hypothesis clean_executing : clean_scope Executing extensions = true.
Hypothesis results_return : forallb returns_normally extensions = true.

(** The iterations that pull the events [evs], whatever follows them. *)
Lemma drain_events evs w :
  exists w1 rs l,
    (forall aiterator fuel,
       starts_with (map Event evs) aiterator ->
       drain (length evs + fuel) sub (AtEvent op aiterator true) w
       = (let '(w2, d) :=
            drain fuel sub (AtEvent op (fun n => aiterator (length evs + n)) true) w1 in
          (w2, emitted_all_before rs d)))
    /\ map plain rs = map plain evs
    /\ log w1 = log w ++ l
    /\ count (is_entered Executing) l = length evs
    /\ count (is_exited Executing) l = length evs
    /\ count is_emitted l = length evs
    /\ count is_reset l = length evs.
Proof using clean_executing results_return.
  revert w. induction evs as [|r evs IH]; intros w.
  - exists w, [], []. simpl. rewrite app_nil_r. repeat split; try done.
    intros aiterator fuel _.
    by destruct (drain fuel sub (AtEvent op (λ n, aiterator n) true) w).
  - set (w0 := iteration_world extensions w).
    set (r' := handled extensions r w0).
    destruct (IH (emit (Emitted r') (results_world extensions w0)))
      as (w1 & rs & l & Hdrain & Hrs & Hlog & Hc1 & Hc2 & Hc3 & Hc4).
    exists w1, (r' :: rs),
      (iteration_events extensions ++ results_events extensions ++ [Emitted r'] ++ l).
    split; [|split; [|split; [|repeat split]]].
    + intros aiterator fuel Hstart.
      apply starts_with_cons in Hstart as [H0 Hstart].
      change (length (r :: evs) + fuel) with (S (length evs + fuel)).
      rewrite drain_S.
      rewrite (anext_item sub clean_executing results_return aiterator r true)
        by (by rewrite H0).
      fold extensions op w0 r'. rewrite (Hdrain _ _ Hstart).
      unfold after_pull. simpl.
      by destruct (drain fuel sub _ w1).
    + simpl. by rewrite Hrs.
    + rewrite Hlog, emit_log.
      change (log (results_world extensions w0))
        with (log w0 ++ results_events extensions).
      unfold w0. rewrite iteration_world_log.
      unfold iteration_events. rewrite <- !app_assoc. simpl.
      by rewrite <- ?app_assoc.
    + rewrite !count_app, count_iteration_events, count_results_events, Hc1
        by apply is_entered_marker. done.
    + rewrite !count_app, count_iteration_events, count_results_events, Hc2
        by apply is_exited_marker. done.
    + rewrite !count_app, count_iteration_events, count_results_events, Hc3
        by apply is_emitted_marker. done.
    + rewrite !count_app, count_iteration_events, count_results_events, Hc4
        by apply is_reset_marker. done.
Qed.

(** The call that starts the generator goes on as an iteration of the loop
    does. *)
Lemma drain_start document aiterator fuel w :
  sub_parse sub = Document document ->
  sub_validate sub = Valid ->
  sub_source sub = inr (EventIterator aiterator) ->
  drain (S fuel) sub NotStarted w
  = drain (S fuel) sub (AtEvent op aiterator true)
      (subscribed_world extensions document w).
Proof using clean_operation clean_parsing clean_validation clean_executing.
  intros Hparse Hvalid Hsrc. rewrite !drain_S.
  by rewrite (anext_start sub clean_operation clean_parsing clean_validation
                clean_executing document aiterator w Hparse Hvalid Hsrc).
Qed.
End CleanIteration.

Lemma emitted_all_before_completed rs rs' :
  emitted_all_before rs (Completed rs') = Completed (rs ++ rs').
Proof.
  unfold emitted_all_before.
  induction rs as [|r rs IH]; simpl; [done|]. by rewrite IH.
Qed.

(** ** Subscriptions whose source fails (C6) *)



(** ** Results come after the executing exit (C7) *)



(** The first event is pulled by the call that starts the generator; that
    call continues as an iteration of the loop does. *)
Lemma first_iteration_is_an_iteration sub document aiterator w :
  clean_scope Operation (sub_extensions sub) = true ->
  clean_scope Parsing (sub_extensions sub) = true ->
  clean_scope Validation (sub_extensions sub) = true ->
  clean_scope Executing (sub_extensions sub) = true ->
  sub_parse sub = Document document ->
  sub_validate sub = Valid ->
  sub_source sub = inr (EventIterator aiterator) ->
  _subscribe sub NotStarted w
  = _subscribe sub
      (AtEvent (map advanced (wrappers Operation (sub_extensions sub))) aiterator true)
      (subscribed_world (sub_extensions sub) document w)
  /\ log (subscribed_world (sub_extensions sub) document w)
     = log w ++ subscribed_events (sub_extensions sub).
Proof.
  intros Hop Hpa Hva Hex Hparse Hvalid Hsrc. split.
  - by apply anext_start.
  - apply subscribed_world_log.
Qed.

(** ** Executing scopes of an exhausted subscription (C10) *)



(** ** Pre-execution errors (C8) *)

Lemma calm_refl w : calm w w.
Proof. exists []. by rewrite app_nil_r. Qed.

Lemma calm_trans w1 w2 w3 : calm w1 w2 -> calm w2 w3 -> calm w1 w3.
Proof.
  intros (l1 & E1 & H1) (l2 & E2 & H2). exists (l1 ++ l2). split.
  - by rewrite E2, E1, <- app_assoc.
  - by apply Forall_app.
Qed.

Lemma calm_emit ev w : in_executing ev = false -> calm w (emit ev w).
Proof. intros H. exists [ev]. split; [done|]. by repeat constructor. Qed.

Lemma calm_perform p name effs w :
  p <> Executing -> calm w (perform p name effs w).
Proof.
  intros Hp. exists (map (HookEffect p name) effs). split; [done|].
  apply Forall_map, Forall_true. intros eff. simpl. by destruct p.
Qed.

Lemma advance_async_calm p h w :
  p <> Executing -> calm w (advance_async p h w).1.2.
Proof.
  intros Hp. unfold advance_async.
  destruct (is_async h).
  - destruct (gen_next StopAsyncIteration (initialized_hook h)) as [[g effs] r].
    simpl. by apply calm_perform.
  - destruct (gen_next StopIteration (initialized_hook h)) as [[g effs] r].
    simpl. by apply calm_perform.
Qed.

Lemma for_each_hook_calm advance is_exit hooks w :
  (forall h w, calm w (advance h w).1.2) ->
  calm w (for_each_hook advance is_exit hooks w).1.2.
Proof.
  intros Hadv. revert w. induction hooks as [|h hooks IH]; intros w; simpl.
  - apply calm_refl.
  - pose proof (Hadv h w) as H1.
    destruct (advance h w) as [[h' w'] r]. simpl in H1.
    pose proof (IH w') as H2.
    destruct (for_each_hook advance is_exit hooks w') as [[l w''] r']. simpl in H2.
    destruct r as [e|].
    + destruct (ctx_suppresses is_exit e); simpl; [|done].
      by eapply calm_trans.
    + simpl. by eapply calm_trans.
Qed.

Lemma scope_calm p (is_exit : bool) hooks w :
  p <> Executing ->
  calm w ((if is_exit then __aexit__ else __aenter__) p hooks w).1.2.
Proof.
  intros Hp.
  pose proof (for_each_hook_calm (advance_async p) is_exit hooks w
                (fun h w => advance_async_calm p h w Hp)) as H.
  destruct is_exit; unfold __aexit__, __aenter__, scope_exit, scope_enter;
    simpl; unfold run_hooks_async;
    destruct (for_each_hook (advance_async p) _ hooks w) as [[l w'] [e|]];
    simpl in *; try done;
    (eapply calm_trans; [exact H|]); apply calm_emit; by destruct p.
Qed.

Lemma new_phase_runner_calm p extensions w :
  calm w (new_phase_runner p extensions w).1.
Proof.
  unfold new_phase_runner.
  pose proof (init_hooks_warned p extensions) as H.
  destruct (init_hooks p extensions) as [warned r]. simpl in *.
  exists warned. split; [done|].
  eapply Forall_impl; [exact H|]. by intros [].
Qed.

(** A scope other than the executing one, around a body that does nothing
    of the executing part of the driver: it raises, or it returns what its
    body returned. *)
Lemma async_with_calm {A} p extensions (body : M A) w :
  p <> Executing ->
  (forall w0, calm w0 (body w0).1) ->
  calm w (async_with p extensions body w).1
  /\ ((exists e, (async_with p extensions body w).2 = Raise e)
      \/ exists w0, (async_with p extensions body w).2 = (body w0).2).
Proof.
  intros Hp Hbody. unfold async_with.
  pose proof (new_phase_runner_calm p extensions w) as H1.
  destruct (new_phase_runner p extensions w) as [w1 [hooks|e]]; simpl in H1;
    [|split; [done|left; by eexists]].
  pose proof (scope_calm p false hooks w1 Hp) as H2.
  destruct (__aenter__ p hooks w1) as [[hooks1 w2] [e|]]; simpl in H2.
  { split; [by eapply calm_trans|left; by eexists]. }
  pose proof (Hbody w2) as H3.
  destruct (body w2) as [w3 o] eqn:E. simpl in H3.
  pose proof (scope_calm p true hooks1 w3 Hp) as H4.
  assert (H14 : calm w (__aexit__ p hooks1 w3).1.2).
  { eapply calm_trans; [|exact H4]. eapply calm_trans; [|exact H3].
    by eapply calm_trans. }
  destruct (__aexit__ p hooks1 w3) as [[hooks2 w4] [e|]]; simpl in *.
  - split; [done|left; by eexists].
  - split; [done|]. right. exists w2. by rewrite E.
Qed.

Lemma get_extensions_results_from_calm extensions d w :
  calm w (get_extensions_results_from extensions d w).1.
Proof.
  revert d w. induction extensions as [|ext rest IH]; intros d w; simpl.
  - apply calm_refl.
  - destruct (_implments_get_rseults ext); [|apply IH].
    unfold call_get_results, mbind, M_bind, tell. simpl.
    destruct (returned ext) as [e|d0]; simpl.
    + by apply calm_emit.
    + eapply calm_trans; [|apply IH]. by apply calm_emit.
Qed.

Lemma get_extensions_results_calm extensions w :
  calm w (get_extensions_results extensions w).1.
Proof.
  unfold get_extensions_results, in_coroutine, mbind, M_bind.
  pose proof (get_extensions_results_from_calm extensions ∅ w) as H.
  by destruct (get_extensions_results_from extensions ∅ w) as [w' [d|e]].
Qed.

Lemma handle_execution_result_calm extensions r w :
  calm w (_handle_execution_result extensions r w).1
  /\ forall r', (_handle_execution_result extensions r w).2 = Ok r' ->
                plain r' = plain r.
Proof.
  unfold _handle_execution_result, in_coroutine, mbind, M_bind.
  pose proof (get_extensions_results_calm extensions w) as H.
  destruct (get_extensions_results extensions w) as [w' [d|e]]; simpl in *.
  - split; [done|]. by intros r' [= <-].
  - by split.
Qed.

(** Parsing and validation that find errors, whatever the parsing and the
    validation hooks do: the call raises or returns the errors found. *)
Lemma parse_and_validate_initial_error sub errs w w' o :
  initial_errors sub = Some errs ->
  _parse_and_validate_async (sub_extensions sub) (sub_parse sub) (sub_validate sub) w
  = (w', o) ->
  calm w w'
  /\ ((exists e, o = Raise e)
      \/ o = Ok (Some (Result PreExecutionError None errs ∅))).
Proof.
  unfold initial_errors, _parse_and_validate_async. intros Herrs.
  unfold mbind at 1, M_bind at 1.
  match goal with
  | |- context [async_with Parsing ?exts ?body w] =>
      assert (Hbody : forall w0', calm w0' (body w0').1);
        [|destruct (async_with_calm Parsing exts body w ltac:(done) Hbody) as [H1 H2]]
  end.
  { intros w0'. cbv [mbind M_bind mret M_ret tell get_ctx set_ctx raise].
    destruct (sub_parse sub); simpl;
      (exists [ParserCalled]; split; [done|by repeat constructor]). }
  clear Hbody.
  destruct (async_with Parsing _ _ w) as [w1 [o1|e]]; simpl in H1, H2;
    [|intros [= <- <-]; split; [done|left; by eexists]].
  destruct H2 as [[e He]|[w0 Hw0]]; [done|].
  revert Hw0. cbv [mbind M_bind mret M_ret tell get_ctx set_ctx raise].
  destruct (sub_parse sub) as [document|errs'|e]; simpl; [| |done].
  - intros [= ->].
    match goal with
    | |- context [async_with Validation ?exts ?body w1] =>
        assert (Hbody : forall w0', calm w0' (body w0').1);
          [|destruct (async_with_calm Validation exts body w1 ltac:(done) Hbody)
              as [H3 H4]]
    end.
    { intros w0'. destruct (sub_validate sub); simpl;
        (exists [ValidatorCalled]; split; [done|by repeat constructor]). }
    clear Hbody.
    destruct (async_with Validation _ _ w1) as [w2 [o2|e]]; simpl in H3, H4;
      [|intros [= <- <-]; split; [by eapply calm_trans|left; by eexists]].
    destruct H4 as [[e He]|[w3 Hw3]]; [done|].
    revert Hw3. destruct (sub_validate sub) as [|errs'|e]; simpl; try done.
    intros [= ->] [= <- <-]. inversion Herrs; subst.
    split; [by eapply calm_trans|by right].
  - intros [= ->] [= <- <-]. inversion Herrs; subst. split; [done|by right].
Qed.

(** The first call of the generator when parsing or validation gave an
    error: it raises, or it yields a pre-execution error while suspended at
    line 57. *)
Lemma start_initial_error sub errs w w' o :
  initial_errors sub = Some errs ->
  _subscribe sub NotStarted w = (w', o) ->
  calm w w'
  /\ ((exists e, o = Raise e)
      \/ exists r op,
           o = Ok (Yielded r (AtInitialError op))
           /\ plain r = (PreExecutionError, None, errs)).
Proof.
  intros Herrs. unfold _subscribe, start.
  pose proof (new_phase_runner_calm Operation (sub_extensions sub) w) as H1.
  destruct (new_phase_runner Operation (sub_extensions sub) w) as [w1 [hooks|e]];
    simpl in H1; [|intros [= <- <-]; split; [done|left; by eexists]].
  pose proof (scope_calm Operation false hooks w1) as H2.
  destruct (__aenter__ Operation hooks w1) as [[op w2] [e|]]; simpl in H2.
  { intros [= <- <-].
    split; [eapply calm_trans; [exact H1|by apply H2]|left; by eexists]. }
  assert (H12 : calm w w2) by (eapply calm_trans; [exact H1|by apply H2]).
  clear H1 H2.
  unfold in_operation. unfold mbind at 1, M_bind at 1.
  destruct (_parse_and_validate_async _ _ _ w2) as [w3 o3] eqn:Epv.
  destruct (parse_and_validate_initial_error sub errs w2 w3 o3 Herrs Epv) as [H3' Hpv].
  assert (H3 : calm w w3) by (by eapply calm_trans).
  pose proof (scope_calm Operation true op w3) as H7'.
  destruct Hpv as [[e ->] | ->].
  { destruct (__aexit__ Operation op w3) as [[op' w6] [e'|]]; simpl in *;
      intros [= <- <-]; (split; [|left; by eexists]);
      eapply calm_trans; try exact H3; by apply H7'. }
  clear H7'.
  cbv [mbind M_bind mret M_ret r_class data errors].
  pose proof (get_extensions_results_calm (sub_extensions sub) w3) as H4.
  destruct (get_extensions_results (sub_extensions sub) w3) as [w4 [d|e]];
    simpl in H4.
  - destruct (handle_execution_result_calm (sub_extensions sub)
                (Result PreExecutionError None errs d) w4) as [H5 H6].
    destruct (_handle_execution_result (sub_extensions sub)
                (Result PreExecutionError None errs d) w4) as [w5 [r|e]];
      simpl in H5, H6.
    + intros [= <- <-]. split.
      * eapply calm_trans; [exact H3|]. eapply calm_trans; [exact H4|].
        eapply calm_trans; [exact H5|]. by apply calm_emit.
      * right. exists r, op. split; [done|]. by apply H6.
    + pose proof (scope_calm Operation true op w5) as H7.
      destruct (__aexit__ Operation op w5) as [[op' w6] [e'|]]; simpl in *;
        intros [= <- <-]; (split; [|left; by eexists]);
        (eapply calm_trans; [exact H3|]); (eapply calm_trans; [exact H4|]);
        (eapply calm_trans; [exact H5|]); by apply H7.
  - pose proof (scope_calm Operation true op w4) as H7.
    destruct (__aexit__ Operation op w4) as [[op' w6] [e'|]]; simpl in *;
      intros [= <- <-]; (split; [|left; by eexists]);
      (eapply calm_trans; [exact H3|]); (eapply calm_trans; [exact H4|]);
      by apply H7.
Qed.

(** The same call when the hooks step cleanly and the [get_results]
    return. *)
Lemma start_initial_error_clean sub errs w :
  let extensions := sub_extensions sub in
  initial_errors sub = Some errs ->
  clean_scope Operation extensions = true ->
  clean_scope Parsing extensions = true ->
  clean_scope Validation extensions = true ->
  forallb returns_normally extensions = true ->
  exists w3 r,
    log w3 = log w ++ entry_events Operation extensions ++ [Entered Operation]
             ++ parse_validate_events sub
    /\ plain r = (PreExecutionError, None, errs)
    /\ _subscribe sub NotStarted w
       = (emit (Emitted r) (results_world extensions (results_world extensions w3)),
          Ok (Yielded r (AtInitialError (map advanced (wrappers Operation extensions))))).
Proof.
  intros extensions Herrs Hop Hpa Hva Hres.
  unfold _subscribe, start, new_phase_runner. fold extensions.
  pose proof (clean_scope_wrappers _ _ Hop) as [Hinit _].
  destruct (init_hooks Operation extensions) as [warned o] eqn:E.
  simpl in Hinit. subst o.
  replace warned with (init_hooks Operation extensions).1 by (by rewrite E).
  rewrite aenter_clean by done.
  unfold in_operation. unfold mbind at 1, M_bind at 1.
  rewrite parse_and_validate_clean by done.
  unfold initial_errors in Herrs. unfold parse_validate_events. fold extensions.
  destruct (sub_parse sub) as [document|errs'|e]; [|inversion Herrs; subst|done].
  - destruct (sub_validate sub) as [|errs'|e]; try done. inversion Herrs; subst.
    cbv zeta. cbv [mbind M_bind mret M_ret r_class data errors].
    rewrite get_extensions_results_clean by done.
    rewrite handle_execution_result_clean by done.
    eexists _, _. split; [|split; [|reflexivity]]; [|done].
    rewrite validation_world_log, parsing_world_log, enter_world_log.
    by rewrite <- !app_assoc.
  - cbv [mbind M_bind mret M_ret r_class data errors].
    rewrite get_extensions_results_clean by done.
    rewrite handle_execution_result_clean by done.
    eexists _, _. split; [|split; [|reflexivity]]; [|done].
    rewrite parsing_world_log, enter_world_log, app_nil_r.
    by rewrite <- !app_assoc.
Qed.



(** The generator alone does not stop after the pre-execution error: it is
    [subscribe] that closes it.  Iterated to its end, it goes on to enter
    the executing scope, where the missing document fails the assertion of
    line 62, and it yields a second result. *)
Lemma generator_goes_on_after_initial_error :
  exists w' r1 r2,
    drain 3 {| sub_extensions := [];
               sub_parse := SyntaxErrors [];
               sub_validate := Valid;
               sub_source := inr (EventIterator exhausted) |} NotStarted fresh_world
    = (w', Completed [r1; r2])
    /\ log w' = [Entered Operation; Entered Parsing; ParserCalled; Exited Parsing;
                 Emitted r1;
                 Entered Executing; Exited Executing; Emitted r2;
                 Exited Operation]
    /\ errors r2 = [_coerce_error AssertionError].
Proof. eexists _, _, _. repeat split; reflexivity. Qed.

(** * Further properties of the phase runners *)

(** ** Construction of a runner *)

Lemma init_hooks_app p exts1 exts2 :
  init_hooks p (exts1 ++ exts2)
  = match init_hooks p exts1 with
    | (warned1, Raise e) => (warned1, Raise e)
    | (warned1, Ok hooks1) =>
        match init_hooks p exts2 with
        | (warned2, Raise e) => (warned1 ++ warned2, Raise e)
        | (warned2, Ok hooks2) => (warned1 ++ warned2, Ok (hooks1 ++ hooks2))
        end
    end.
Proof.
  induction exts1 as [|ext exts1 IH]; simpl.
  - by destruct (init_hooks p exts2) as [warned2 [hooks2|e]].
  - destruct (get_hook p ext) as [warned [hook|e]]; [|done].
    rewrite IH.
    destruct (init_hooks p exts1) as [warned1 [hooks1|e]]; [|done].
    destruct (init_hooks p exts2) as [warned2 [hooks2|e]];
      rewrite <- ?app_assoc; [|done].
    by destruct hook.
Qed.

Lemma get_hook_nothing p ext :
  defines_nothing p ext -> get_hook p ext = ([], Ok None).
Proof.
  intros (Hs & He & Hn). unfold get_hook. by rewrite Hs, He, Hn.
Qed.

(** X1. An extension that defines nothing for a phase is invisible to the
    runner of that phase: wherever it stands in the list of extensions, the
    runner is built with the same warnings and the same wrappers, or fails
    in the same way, as without it. *)
Theorem silent_extension_is_skipped
    (p : phase) (before after : list Extension) (ext : Extension) :
  defines_nothing p ext ->
  init_hooks p (before ++ ext :: after) = init_hooks p (before ++ after).
Proof.
  intros H. rewrite !init_hooks_app. simpl. rewrite (get_hook_nothing p ext H).
  destruct (init_hooks p before) as [warned1 [hooks1|e]]; [|done].
  by destruct (init_hooks p after) as [warned2 [hooks2|e]].
Qed.

Lemma silent_extension_is_skipped_witness :
  init_hooks Validation [tracing "A" false; base_extension "Base"; tracing "B" true]
  = init_hooks Validation [tracing "A" false; tracing "B" true].
Proof.
  apply (silent_extension_is_skipped Validation [tracing "A" false]
           [tracing "B" true] (base_extension "Base")).
  repeat split.
Defined.

Lemma get_hook_ok_iff p ext :
  (exists hook, (get_hook p ext).2 = Ok hook) <-> ~ conflicts p ext.
Proof.
  split.
  - intros [hook H] [Hlegacy Hnew].
    by rewrite (get_hook_conflict p ext Hlegacy Hnew) in H.
  - intros Hno. unfold get_hook, conflicts in *.
    destruct (legacy_start ext p) as [s|] eqn:Es;
      destruct (legacy_end ext p) as [e|] eqn:Ee;
      destruct (new_style ext p) eqn:En; simpl; eauto;
      exfalso; apply Hno; split; try done; by (left + right).
Qed.

(** X2. The runner of a phase can be built from a list of extensions
    exactly when none of them defines both styles of hook for that phase:
    a conflict is the only reason for the construction to fail. *)
Theorem runner_is_built_unless_conflict (p : phase) (extensions : list Extension) :
  (exists hooks, (init_hooks p extensions).2 = Ok hooks)
  <-> Forall (fun ext => ~ conflicts p ext) extensions.
Proof.
  induction extensions as [|ext rest IH]; simpl.
  - split; [done|]. by exists [].
  - rewrite Forall_cons, <- IH, <- get_hook_ok_iff.
    destruct (get_hook p ext) as [warned [hook|e]]; simpl.
    + destruct (init_hooks p rest) as [warned' [hooks|e]]; simpl.
      * split; [intros _; split; eauto|]. intros _. eauto.
      * split; [by intros [? ?]|]. by intros [_ [? ?]].
    + split; [by intros [? ?]|]. by intros [[? ?] _].
Qed.

Lemma runner_is_built_unless_conflict_witness :
  exists hooks,
    (init_hooks Parsing [tracing "A" false; conflicted; legacy_parsing]).2 = Ok hooks.
Proof.
  apply (proj2 (runner_is_built_unless_conflict Parsing
                  [tracing "A" false; conflicted; legacy_parsing])).
  repeat constructor; intros [H1 H2]; simpl in *.
  - by destruct H1.
  - by destruct H1.
  - by destruct H2.
Defined.

(** ** Plain functions as hooks *)

(** X3. A new-style hook that is a plain function, with no [yield], is
    called once, when the scope is entered, and nothing of it runs when the
    scope is left; its wrapper is suspend-capable exactly when the function
    is a coroutine function. *)
Theorem plain_function_hook_runs_on_entry_only
    (m : mode) (p : phase) (ext : Extension) (c : callable) (w : world) :
  new_style ext p = PlainCallable c ->
  legacy_start ext p = None ->
  legacy_end ext p = None ->
  c_raises c = None ->
  (m = Blocking -> is_coroutine c = false) ->
  exists h w',
    get_hook p ext = ([], Ok (Some h))
    /\ is_async h = is_coroutine c
    /\ run_scope m p [h] w = (w', None)
    /\ log w'
       = log w ++ map (HookEffect p (ext_name ext)) (c_effects c)
         ++ [Entered p; Exited p].
Proof.
  intros Hnew Hs He Hraises Hmode.
  set (h := {| extension := ext;
               initialized_hook := [Segment (c_effects c) SYield];
               is_async := is_coroutine c |}).
  assert (Hhook : get_hook p ext = ([], Ok (Some h))).
  { unfold get_hook. rewrite Hs, He, Hnew. simpl.
    unfold from_callable, guarded_call. rewrite Hraises.
    by destruct (is_coroutine c). }
  assert (Hclean : Forall (fun h => steps_cleanly h = true) [h]) by by repeat constructor.
  assert (Hsync : m = Blocking -> Forall (fun h => is_async h = false) [h]).
  { intros Hm. repeat constructor. by apply Hmode. }
  eexists h, _. split; [done|]. split; [done|].
  unfold run_scope. rewrite scope_enter_clean by done.
  rewrite scope_exit_clean by done. split; [done|].
  simpl. rewrite app_nil_r, <- !app_assoc. done.
Qed.

Lemma plain_function_hook_runs_on_entry_only_witness :
  exists h w',
    get_hook Parsing (single_shot "S" true) = ([], Ok (Some h))
    /\ is_async h = true
    /\ run_scope Suspending Parsing [h] fresh_world = (w', None)
    /\ log w' = [HookEffect Parsing "S" (Observe "S.called");
                 Entered Parsing; Exited Parsing].
Proof.
  apply (plain_function_hook_runs_on_entry_only Suspending Parsing
           (single_shot "S" true)
           (Callable true [Observe "S.called"] None) fresh_world);
    try reflexivity.
  discriminate.
Defined.

(** ** Completion signals on entry and on exit *)

(** X4. On entry nothing is suppressed: a wrapper whose first advance
    raises the completion signal, because its generator returns before its
    first [yield], makes the runner fail and leaves the wrappers after it
    untouched.  The blocking runner raises the signal itself; out of the
    suspend-capable runner, a coroutine, a [StopIteration] comes as a
    [RuntimeError]. *)
Theorem entry_does_not_suppress_completion
    (m : mode) (p : phase) (hook hook' : WrappedHook) (rest : list WrappedHook)
    (w w' : world) (e : exn) :
  advance_of m p hook w = (hook', w', Some e) ->
  run_hooks m p false (hook :: rest) w = (hook' :: rest, w', Some (raised_by m e))
  /\ scope_enter m p (hook :: rest) w = (hook' :: rest, w', Some (raised_by m e)).
Proof.
  intros Hadv.
  assert (H : run_hooks m p false (hook :: rest) w
              = (hook' :: rest, w', Some (raised_by m e))).
  { rewrite run_hooks_eq. simpl. rewrite Hadv. by destruct m. }
  split; [done|]. unfold scope_enter. by rewrite H.
Qed.

Lemma entry_does_not_suppress_completion_witness :
  run_hooks Suspending Operation false
    [ {| extension := tracing "A" false;
         initialized_hook := [Segment [Observe "A.early"] SReturn];
         is_async := false |};
      {| extension := tracing "B" false;
         initialized_hook := two_step "B.before" "B.after"; is_async := false |} ]
    fresh_world
  = ([ {| extension := tracing "A" false; initialized_hook := []; is_async := false |};
       {| extension := tracing "B" false;
          initialized_hook := two_step "B.before" "B.after"; is_async := false |} ],
     World empty_context [HookEffect Operation "A" (Observe "A.early")],
     Some (RuntimeError "coroutine raised StopIteration")).
Proof.
  refine (proj1 (entry_does_not_suppress_completion Suspending Operation
    {| extension := tracing "A" false;
       initialized_hook := [Segment [Observe "A.early"] SReturn];
       is_async := false |}
    {| extension := tracing "A" false; initialized_hook := []; is_async := false |}
    [ {| extension := tracing "B" false;
         initialized_hook := two_step "B.before" "B.after"; is_async := false |} ]
    fresh_world
    (World empty_context [HookEffect Operation "A" (Observe "A.early")])
    StopIteration eq_refl)).
Defined.

Lemma for_each_hook_exit_failure advance hooks w e :
  (for_each_hook advance true hooks w).2 = Some e -> is_stop e = false.
Proof.
  revert w. induction hooks as [|h hooks IH]; intros w; simpl; [done|].
  destruct (advance h w) as [[h' w'] [e'|]].
  - unfold ctx_suppresses. simpl. destruct (is_stop e') eqn:E.
    + specialize (IH w').
      destruct (for_each_hook advance true hooks w') as [[? ?] ?]. exact IH.
    + simpl. by intros [= <-].
  - specialize (IH w').
    destruct (for_each_hook advance true hooks w') as [[? ?] ?]. exact IH.
Qed.

(** X5. Leaving a scope never raises a completion signal, whatever the
    wrappers do: what [run_hooks_sync] and [run_hooks_async] raise on exit
    is neither [StopIteration] nor [StopAsyncIteration]. *)
Theorem exit_never_raises_completion
    (m : mode) (p : phase) (hooks : list WrappedHook) (w : world) (e : exn) :
  (run_hooks m p true hooks w).2 = Some e -> is_stop e = false.
Proof.
  rewrite run_hooks_eq.
  pose proof (for_each_hook_exit_failure (advance_of m p) hooks w) as H.
  destruct (for_each_hook (advance_of m p) true hooks w) as [[hooks' w'] [e'|]];
    simpl in *; [|by destruct m].
  specialize (H e' eq_refl).
  destruct m; simpl; intros [= <-]; [done|]. by destruct e'.
Qed.

Lemma exit_never_raises_completion_witness :
  is_stop (RuntimeError "Extension hook B.on_operation failed to complete synchronously.")
  = false.
Proof.
  apply (exit_never_raises_completion Blocking Operation
           [ {| extension := tracing "A" false; initialized_hook := []; is_async := false |};
             {| extension := tracing "B" true; initialized_hook := []; is_async := true |} ]
           fresh_world).
  reflexivity.
Defined.

Lemma perform_nil p name w : perform p name [] w = w.
Proof. unfold perform. simpl. rewrite app_nil_r. by destruct w. Qed.

(** X6. Wrappers whose generators have finished can be advanced again on
    exit without harm: leaving the scope once more runs no hook code,
    raises nothing and leaves the wrappers as they are.  In blocking mode
    this needs the wrappers to be blocking. *)
Theorem exit_of_finished_wrappers_does_nothing
    (m : mode) (p : phase) (hooks : list WrappedHook) (w : world) :
  Forall (fun h => initialized_hook h = []) hooks ->
  (m = Blocking -> Forall (fun h => is_async h = false) hooks) ->
  scope_exit m p hooks w = (hooks, emit (Exited p) w, None).
Proof.
  intros Hdone Hmode. unfold scope_exit. rewrite run_hooks_eq.
  assert (H : for_each_hook (advance_of m p) true hooks w = (hooks, w, None)).
  { revert Hmode. induction Hdone as [|h hooks Hh _ IH]; intros Hmode; simpl; [done|].
    rewrite advance_of_eq
      by (intros Hm; specialize (Hmode Hm); by apply Forall_cons in Hmode as [? _]).
    unfold advanced, first_step, next_generator, next_effects, stop_of.
    rewrite Hh. simpl. rewrite perform_nil.
    assert (is_stop (if is_async h then StopAsyncIteration else StopIteration)
            = true) as -> by (by destruct (is_async h)).
    rewrite IH by (intros Hm; specialize (Hmode Hm); by apply Forall_cons in Hmode as [_ ?]).
    do 3 f_equal. destruct h; simpl in *. by subst. }
  rewrite H. by destruct m.
Qed.

Lemma exit_of_finished_wrappers_does_nothing_witness :
  scope_exit Suspending Executing
    [ {| extension := tracing "A" false; initialized_hook := []; is_async := false |};
      {| extension := tracing "B" true; initialized_hook := []; is_async := true |} ]
    fresh_world
  = ([ {| extension := tracing "A" false; initialized_hook := []; is_async := false |};
       {| extension := tracing "B" true; initialized_hook := []; is_async := true |} ],
     emit (Exited Executing) fresh_world, None).
Proof.
  apply (exit_of_finished_wrappers_does_nothing Suspending Executing
           [ {| extension := tracing "A" false; initialized_hook := []; is_async := false |};
             {| extension := tracing "B" true; initialized_hook := []; is_async := true |} ]
           fresh_world).
  - repeat constructor.
  - discriminate.
Defined.

(** ** The two runners side by side *)

Lemma advance_async_sync p h w :
  is_async h = false -> advance_async p h w = advance_sync p h w.
Proof. intros H. unfold advance_async, advance_sync. by rewrite H. Qed.

Lemma for_each_hook_ext advance1 advance2 is_exit hooks w :
  Forall (fun h => forall w, advance1 h w = advance2 h w) hooks ->
  for_each_hook advance1 is_exit hooks w = for_each_hook advance2 is_exit hooks w.
Proof.
  intros H. revert w. induction H as [|h hooks Hh _ IH]; intros w; simpl; [done|].
  rewrite Hh. destruct (advance2 h w) as [[h' w'] [e|]]; rewrite ?IH; done.
Qed.

(** X7. On blocking wrappers the suspend-capable runner does what the
    blocking runner does: it advances the same wrappers, with the same
    effects, and fails where the blocking runner fails, with the same
    exception except that a [StopIteration] comes as a [RuntimeError]. *)
Theorem runners_agree_on_blocking_wrappers
    (p : phase) (is_exit : bool) (hooks : list WrappedHook) (w : world) :
  Forall (fun h => is_async h = false) hooks ->
  run_hooks_async p is_exit hooks w
  = (let '(hooks', w', r) := run_hooks_sync p is_exit hooks w in
     (hooks', w', coroutine_raises <$> r)).
Proof.
  intros H. unfold run_hooks_async, run_hooks_sync.
  rewrite (for_each_hook_ext (advance_async p) (advance_sync p)); [done|].
  eapply Forall_impl; [exact H|]. intros h Hh w'. by apply advance_async_sync.
Qed.

Lemma runners_agree_on_blocking_wrappers_witness :
  run_hooks_async Operation false
    [ {| extension := tracing "A" false;
         initialized_hook := two_step "A.before" "A.after"; is_async := false |} ]
    fresh_world
  = (let '(hooks', w', r) :=
       run_hooks_sync Operation false
         [ {| extension := tracing "A" false;
              initialized_hook := two_step "A.before" "A.after"; is_async := false |} ]
         fresh_world in
     (hooks', w', coroutine_raises <$> r)).
Proof.
  apply (runners_agree_on_blocking_wrappers Operation false
           [ {| extension := tracing "A" false;
                initialized_hook := two_step "A.before" "A.after"; is_async := false |} ]
           fresh_world).
  repeat constructor.
Defined.

(** X8. Running the wrappers of a list is running those of its front part
    and then, unless one of them failed, those of its back part in the
    world the front part left; after a failure the back part is left
    untouched.  This holds for both runners, on entry and on exit. *)
Theorem run_hooks_of_appended_lists
    (m : mode) (p : phase) (is_exit : bool) (hooks1 hooks2 : list WrappedHook)
    (w : world) :
  run_hooks m p is_exit (hooks1 ++ hooks2) w
  = (let '(hooks1', w', r) := run_hooks m p is_exit hooks1 w in
     match r with
     | Some e => (hooks1' ++ hooks2, w', Some e)
     | None =>
         let '(hooks2', w'', r') := run_hooks m p is_exit hooks2 w' in
         (hooks1' ++ hooks2', w'', r')
     end).
Proof.
  rewrite !run_hooks_eq, for_each_hook_app.
  destruct (for_each_hook (advance_of m p) is_exit hooks1 w) as [[l1 w1] [e|]].
  - by destruct m.
  - rewrite run_hooks_eq.
    destruct (for_each_hook (advance_of m p) is_exit hooks2 w1) as [[l2 w2] r].
    by destruct m.
Qed.

(** * Further properties of the results aggregation *)

Lemma get_extensions_results_from_app exts1 exts2 d w :
  get_extensions_results_from (exts1 ++ exts2) d w
  = match get_extensions_results_from exts1 d w with
    | (w', Ok d') => get_extensions_results_from exts2 d' w'
    | (w', Raise e) => (w', Raise e)
    end.
Proof.
  revert d w. induction exts1 as [|ext exts1 IH]; intros d w; simpl; [done|].
  destruct (_implments_get_rseults ext); [|apply IH].
  unfold call_get_results, mbind, M_bind, tell. simpl.
  destruct (returned ext) as [e|d0]; simpl; [done|apply IH].
Qed.

(** X9. An extension that inherits [get_results] is never called and
    changes nothing: wherever it stands in the list, both aggregations give
    what they give without it, whatever the other extensions return or
    raise. *)
Theorem inherited_get_results_is_skipped
    (before after : list Extension) (ext : Extension) (w : world) :
  _implments_get_rseults ext = false ->
  get_extensions_results (before ++ ext :: after) w
  = get_extensions_results (before ++ after) w
  /\ get_extensions_results_sync (before ++ ext :: after) w
     = get_extensions_results_sync (before ++ after) w.
Proof.
  intros H. split.
  - unfold get_extensions_results, in_coroutine, mbind, M_bind.
    rewrite !get_extensions_results_from_app. simpl. by rewrite H.
  - unfold get_extensions_results_sync.
    rewrite !get_extensions_results_sync_from_app. simpl. by rewrite H.
Qed.

Lemma inherited_get_results_is_skipped_witness :
  get_extensions_results
    [reporting "A" (SyncGetResults (inr {["k" := "A"]})); base_extension "Base";
     failing_results "F" (UserException "boom")]
    fresh_world
  = get_extensions_results
      [reporting "A" (SyncGetResults (inr {["k" := "A"]}));
       failing_results "F" (UserException "boom")]
      fresh_world
  /\ get_extensions_results_sync
       [reporting "A" (SyncGetResults (inr {["k" := "A"]})); base_extension "Base";
        failing_results "F" (UserException "boom")]
       fresh_world
     = get_extensions_results_sync
         [reporting "A" (SyncGetResults (inr {["k" := "A"]}));
          failing_results "F" (UserException "boom")]
         fresh_world.
Proof.
  apply (inherited_get_results_is_skipped
           [reporting "A" (SyncGetResults (inr {["k" := "A"]}))]
           [failing_results "F" (UserException "boom")]
           (base_extension "Base") fresh_world).
  reflexivity.
Defined.

(** X10. A failure of one [get_results] ends the aggregation: the
    extensions before it have been called, in registration order, those
    after it are not called, and the failure is what the aggregation
    raises, unchanged by the blocking variant and, by the suspend-capable
    one, unchanged unless it is a [StopIteration]. *)
Theorem failing_get_results_ends_aggregation
    (before after : list Extension) (ext : Extension) (e : exn) (w : world) :
  Forall (fun ext => returns_normally ext = true) before ->
  returned ext = inl e ->
  get_extensions_results (before ++ ext :: after) w
  = (World (ctx w) (log w ++ results_events before ++ [GotResults (ext_name ext)]),
     Raise (coroutine_raises e))
  /\ (Forall (fun ext => get_results_is_coroutine ext = false) (before ++ [ext]) ->
      get_extensions_results_sync (before ++ ext :: after) w
      = (World (ctx w) (log w ++ results_events before ++ [GotResults (ext_name ext)]),
         Raise e)).
Proof.
  intros Hbefore Hext.
  assert (Himpl : _implments_get_rseults ext = true).
  { unfold returned, _implments_get_rseults in *. by destruct (get_results ext). }
  split.
  - unfold get_extensions_results, in_coroutine, mbind, M_bind.
    rewrite get_extensions_results_from_app.
    rewrite get_extensions_results_from_normal by done. simpl.
    rewrite Himpl. unfold call_get_results, mbind, M_bind, tell. simpl.
    rewrite Hext. unfold emit. simpl. by rewrite <- app_assoc.
  - intros Hsync. apply Forall_app in Hsync as [Hsync Hs].
    apply Forall_cons in Hs as [Hs _].
    unfold get_extensions_results_sync.
    rewrite get_extensions_results_sync_from_app.
    rewrite get_extensions_results_sync_from_normal by done. simpl.
    rewrite Himpl, Hs. unfold call_get_results, mbind, M_bind, tell. simpl.
    rewrite Hext. unfold emit. simpl. by rewrite <- app_assoc.
Qed.

Lemma failing_get_results_ends_aggregation_witness :
  get_extensions_results
    [reporting "A" (AsyncGetResults (inr ∅)); failing_results "F" StopIteration;
     reporting "B" (SyncGetResults (inr ∅))]
    fresh_world
  = (World empty_context [GotResults "A"; GotResults "F"],
     Raise (RuntimeError "coroutine raised StopIteration")).
Proof.
  refine (proj1 (failing_get_results_ends_aggregation
    [reporting "A" (AsyncGetResults (inr ∅))]
    [reporting "B" (SyncGetResults (inr ∅))]
    (failing_results "F" StopIteration) StopIteration fresh_world _ eq_refl)).
  repeat constructor.
Defined.

Lemma get_extensions_results_from_sync extensions d w :
  Forall (fun ext => get_results_is_coroutine ext = false) extensions ->
  get_extensions_results_from extensions d w
  = get_extensions_results_sync_from extensions d w.
Proof.
  intros H. revert d w. induction H as [|ext rest Hext _ IH]; intros d w; simpl;
    [done|].
  destruct (_implments_get_rseults ext); [|apply IH].
  rewrite Hext. unfold call_get_results, mbind, M_bind, tell. simpl.
  destruct (returned ext) as [e|d0]; simpl; [done|apply IH].
Qed.

Lemma get_extensions_results_sync_from_ctx extensions d w :
  ctx (get_extensions_results_sync_from extensions d w).1 = ctx w.
Proof.
  revert d w. induction extensions as [|ext rest IH]; intros d w; simpl; [done|].
  destruct (_implments_get_rseults ext); [|apply IH].
  destruct (get_results_is_coroutine ext); [done|].
  unfold call_get_results, mbind, M_bind, tell. simpl.
  destruct (returned ext) as [e|d0]; simpl; [done|by rewrite IH].
Qed.

(** X11. When no [get_results] is a coroutine function, the suspend-capable
    aggregation is the blocking one followed by the overlay: the same calls
    are made, a mapping the blocking variant returns is returned under the
    per-iteration mapping of the context, and a failure it raises is raised
    (a [StopIteration] as a [RuntimeError]). *)
Theorem suspending_aggregation_is_blocking_plus_overlay
    (extensions : list Extension) (w : world) :
  Forall (fun ext => get_results_is_coroutine ext = false) extensions ->
  get_extensions_results extensions w
  = (let '(w', o) := get_extensions_results_sync extensions w in
     (w', match o with
          | Ok d => Ok (extensions_results (ctx w) ∪ d)
          | Raise e => Raise (coroutine_raises e)
          end)).
Proof.
  intros H.
  unfold get_extensions_results, get_extensions_results_sync, in_coroutine,
    mbind, M_bind.
  rewrite get_extensions_results_from_sync by done.
  pose proof (get_extensions_results_sync_from_ctx extensions ∅ w) as Hctx.
  destruct (get_extensions_results_sync_from extensions ∅ w) as [w' [d|e]];
    simpl in *; [|done].
  by rewrite Hctx.
Qed.

Lemma suspending_aggregation_is_blocking_plus_overlay_witness :
  get_extensions_results
    [reporting "A" (SyncGetResults (inr {["k" := "A"]}))]
    (World {| graphql_document := None; extensions_results := {["j" := "context"]} |} [])
  = (let '(w', o) :=
       get_extensions_results_sync
         [reporting "A" (SyncGetResults (inr {["k" := "A"]}))]
         (World {| graphql_document := None;
                   extensions_results := {["j" := "context"]} |} []) in
     (w', match o with
          | Ok d => Ok ({["j" := "context"]} ∪ d)
          | Raise e => Raise (coroutine_raises e)
          end)).
Proof.
  refine (suspending_aggregation_is_blocking_plus_overlay
           [reporting "A" (SyncGetResults (inr {["k" := "A"]}))]
           (World {| graphql_document := None;
                     extensions_results := {["j" := "context"]} |} []) _).
  repeat constructor.
Defined.

Lemma merge_results_keys extensions k :
  is_Some (merge_results extensions !! k)
  <-> Exists (fun ext => is_Some (contribution ext !! k)) extensions.
Proof.
  induction extensions as [|ext rest IH] using rev_ind.
  - unfold merge_results. simpl. rewrite lookup_empty, Exists_nil.
    split; [by intros [? ?]|done].
  - rewrite merge_results_snoc, Exists_app, Exists_cons, Exists_nil, <- IH.
    rewrite lookup_union_is_Some. tauto.
Qed.

(** X12. The aggregation loses no key and invents none: when every
    [get_results] returns, the mapping the suspend-capable aggregation
    returns has exactly the keys of the per-iteration mapping of the context
    and of the mappings the extensions returned. *)
Theorem aggregation_keeps_every_key (extensions : list Extension) (w : world) :
  Forall (fun ext => returns_normally ext = true) extensions ->
  exists w' d,
    get_extensions_results extensions w = (w', Ok d)
    /\ forall k,
         is_Some (d !! k)
         <-> is_Some (extensions_results (ctx w) !! k)
             \/ Exists (fun ext => is_Some (contribution ext !! k)) extensions.
Proof.
  intros H. eexists _, _. split; [by apply get_extensions_results_normal|].
  intros k. by rewrite lookup_union_is_Some, merge_results_keys.
Qed.

Lemma aggregation_keeps_every_key_witness :
  exists w' d,
    get_extensions_results
      [reporting "A" (SyncGetResults (inr {["a" := "1"]}));
       reporting "B" (AsyncGetResults (inr {["b" := "2"]}))]
      fresh_world
    = (w', Ok d)
    /\ forall k,
         is_Some (d !! k)
         <-> is_Some (extensions_results (ctx fresh_world) !! k)
             \/ Exists (fun ext => is_Some (contribution ext !! k))
                  [reporting "A" (SyncGetResults (inr {["a" := "1"]}));
                   reporting "B" (AsyncGetResults (inr {["b" := "2"]}))].
Proof.
  apply (aggregation_keeps_every_key
           [reporting "A" (SyncGetResults (inr {["a" := "1"]}));
            reporting "B" (AsyncGetResults (inr {["b" := "2"]}))]
           fresh_world).
  repeat constructor.
Defined.

(** * Further properties of the subscription driver *)

Lemma is_pulled_marker ev : is_quiet ev = true -> is_pulled ev = false.
Proof. by destruct ev. Qed.
Lemma is_subscribed_marker ev : is_quiet ev = true -> is_subscribed ev = false.
Proof. by destruct ev. Qed.

Section CleanStart.
Variable sub : subscription.
Let extensions := sub_extensions sub.
Let op := map advanced (wrappers Operation extensions).

Hypothesis clean_operation : clean_scope Operation extensions = true.
Hypothesis clean_parsing : clean_scope Parsing extensions = true.
Hypothesis clean_validation : clean_scope Validation extensions = true.
Hypothesis clean_executing : clean_scope Executing extensions = true.
Hypothesis results_return : forallb returns_normally extensions = true.

Lemma anext_after_last_yield w :
  _subscribe sub (AtImmediateError op) w = (exit_world Operation extensions w, Ok Exhausted)
  /\ _subscribe sub (AtHookError op) w = (exit_world Operation extensions w, Ok Exhausted)
  /\ aclose (AtImmediateError op) w = (exit_world Operation extensions w, Ok tt)
  /\ aclose (AtHookError op) w = (exit_world Operation extensions w, Ok tt).
Proof using clean_operation.
  unfold _subscribe, aclose, in_operation, mret, M_ret, op.
  by rewrite aexit_clean.
Qed.

Lemma start_immediate document errs w :
  sub_parse sub = Document document ->
  sub_validate sub = Valid ->
  sub_source sub = inr (ImmediateResult errs) ->
  let ws := subscribed_world extensions document w in
  let r := handled extensions (Result PreExecutionError None errs ∅) ws in
  _subscribe sub NotStarted w
  = (emit (Emitted r) (results_world extensions ws),
     Ok (Yielded r (AtImmediateError op))).
Proof using clean_operation clean_parsing clean_validation clean_executing
  results_return.
  intros Hparse Hvalid Hsrc ws r.
  etrans; [by apply (start_to_source sub clean_operation clean_parsing
                       clean_validation clean_executing document w)|].
  rewrite Hsrc. fold extensions op ws.
  unfold in_operation, in_try, try_except, mbind, M_bind.
  by rewrite handle_execution_result_clean.
Qed.

Lemma start_source_raises document e w :
  sub_parse sub = Document document ->
  sub_validate sub = Valid ->
  sub_source sub = inl e ->
  let ws := subscribed_world extensions document w in
  let r := handled extensions (Result OriginalExecutionResult None [_coerce_error e] ∅) ws in
  _subscribe sub NotStarted w
  = (emit (Emitted r) (results_world extensions ws),
     Ok (Yielded r (AtHookError op))).
Proof using clean_operation clean_parsing clean_validation clean_executing
  results_return.
  intros Hparse Hvalid Hsrc ws r.
  etrans; [by apply (start_to_source sub clean_operation clean_parsing
                       clean_validation clean_executing document w)|].
  rewrite Hsrc. fold extensions op ws.
  unfold in_operation, in_try, try_except, mbind, M_bind.
  by rewrite handle_execution_result_clean.
Qed.
End CleanStart.

Lemma single_result_log extensions document r w :
  log (exit_world Operation extensions
         (emit (Emitted r)
            (results_world extensions (subscribed_world extensions document w))))
  = log w ++ subscribed_events extensions ++ results_events extensions
    ++ [Emitted r] ++ exit_events Operation extensions ++ [Exited Operation].
Proof.
  rewrite exit_world_log, emit_log.
  change (log (results_world ?e ?w')) with (log w' ++ results_events e).
  rewrite subscribed_world_log. rewrite <- !app_assoc. simpl.
  by rewrite <- ?app_assoc.
Qed.







(** ** Failures of the executing hooks *)

Lemma quietly_refl w : quietly w w.
Proof. exists []. by rewrite app_nil_r. Qed.

Lemma quietly_trans w1 w2 w3 : quietly w1 w2 -> quietly w2 w3 -> quietly w1 w3.
Proof.
  intros (l1 & E1 & H1) (l2 & E2 & H2). exists (l1 ++ l2). split.
  - by rewrite E2, E1, <- app_assoc.
  - by apply Forall_app.
Qed.

Lemma advance_async_quietly p h w : quietly w (advance_async p h w).1.2.
Proof.
  unfold advance_async.
  destruct (is_async h).
  - destruct (gen_next StopAsyncIteration (initialized_hook h)) as [[g effs] r].
    simpl. eexists. split; [done|]. by apply Forall_map, Forall_true.
  - destruct (gen_next StopIteration (initialized_hook h)) as [[g effs] r].
    simpl. eexists. split; [done|]. by apply Forall_map, Forall_true.
Qed.

Lemma for_each_hook_quietly p is_exit hooks w :
  quietly w (for_each_hook (advance_async p) is_exit hooks w).1.2.
Proof.
  revert w. induction hooks as [|h hooks IH]; intros w; simpl.
  - apply quietly_refl.
  - pose proof (advance_async_quietly p h w) as H1.
    destruct (advance_async p h w) as [[h' w'] r]. simpl in H1.
    pose proof (IH w') as H2.
    destruct (for_each_hook (advance_async p) is_exit hooks w') as [[l w''] r'].
    simpl in H2.
    destruct r as [e|].
    + destruct (ctx_suppresses is_exit e); simpl; [|done].
      by eapply quietly_trans.
    + simpl. by eapply quietly_trans.
Qed.

Lemma async_with_entry_fails p extensions e w :
  entry_fails p extensions e ->
  exists w',
    quietly w w'
    /\ forall A (body : M A), async_with p extensions body w = (w', Raise e).
Proof.
  intros Hfail. unfold entry_fails in Hfail. unfold async_with, new_phase_runner.
  pose proof (init_hooks_warned p extensions) as Hwarned.
  destruct (init_hooks p extensions) as [warned o]. simpl in *.
  assert (Hq : quietly w (World (ctx w) (log w ++ warned))).
  { exists warned. split; [done|].
    eapply Forall_impl; [exact Hwarned|]. by intros []. }
  destruct Hfail as [->|(hooks & -> & Hfail)].
  - by eexists.
  - specialize (Hfail (World (ctx w) (log w ++ warned))).
    pose proof (for_each_hook_quietly p false hooks (World (ctx w) (log w ++ warned)))
      as Hq'.
    revert Hfail. unfold __aenter__, scope_enter. simpl. unfold run_hooks_async.
    destruct (for_each_hook (advance_async p) false hooks _) as [[hooks' w'] [e'|]];
      simpl in *; [|done].
    intros [= <-]. eexists. split; [by eapply quietly_trans|done].
Qed.



(** ** Closing a subscription early *)

Lemma take_and_close_S n sub s w :
  take_and_close (S n) sub s w
  = match _subscribe sub s w with
    | (w1, Raise e) => (w1, Failed [] e)
    | (w1, Ok Exhausted) => (w1, Completed [])
    | (w1, Ok (Yielded r s')) =>
        let '(w2, d) := take_and_close n sub s' w1 in (w2, emitted_before r d)
    end.
Proof. done. Qed.

Lemma take_and_close_0 sub s w :
  take_and_close 0 sub s w
  = match aclose s w with
    | (w', Ok _) => (w', Completed [])
    | (w', Raise e) => (w', Failed [] e)
    end.
Proof. done. Qed.

Section CleanTaking.
Variable sub : subscription.
Let extensions := sub_extensions sub.
Let op := map advanced (wrappers Operation extensions).

Hypothesis clean_operation : clean_scope Operation extensions = true.
Hypothesis clean_executing : clean_scope Executing extensions = true.
Hypothesis results_return : forallb returns_normally extensions = true.

Lemma take_events evs w :
  exists w1 rs l,
    (forall aiterator n,
       starts_with (map Event evs) aiterator ->
       take_and_close (length evs + n) sub (AtEvent op aiterator true) w
       = (let '(w2, d) :=
            take_and_close n sub
              (AtEvent op (fun i => aiterator (length evs + i)) true) w1 in
          (w2, emitted_all_before rs d)))
    /\ map plain rs = map plain evs
    /\ log w1 = log w ++ l
    /\ count is_pulled l = length evs
    /\ count is_emitted l = length evs
    /\ count (is_entered Operation) l = 0
    /\ count (is_exited Operation) l = 0.
Proof using clean_executing results_return.
  revert w. induction evs as [|r evs IH]; intros w.
  - exists w, [], []. simpl. rewrite app_nil_r. repeat split; try done.
    intros aiterator n _.
    by destruct (take_and_close n sub (AtEvent op (λ i, aiterator i) true) w).
  - set (w0 := iteration_world extensions w).
    set (r' := handled extensions r w0).
    destruct (IH (emit (Emitted r') (results_world extensions w0)))
      as (w1 & rs & l & Htake & Hrs & Hlog & Hc1 & Hc2 & Hc3 & Hc4).
    exists w1, (r' :: rs),
      (iteration_events extensions ++ results_events extensions ++ [Emitted r'] ++ l).
    split; [|split; [|split; [|repeat split]]].
    + intros aiterator n Hstart.
      apply starts_with_cons in Hstart as [H0 Hstart].
      change (length (r :: evs) + n) with (S (length evs + n)).
      rewrite take_and_close_S.
      rewrite (anext_item sub clean_executing results_return aiterator r true)
        by (by rewrite H0).
      fold extensions op w0 r'. rewrite (Htake _ _ Hstart).
      unfold after_pull. simpl.
      by destruct (take_and_close n sub _ w1).
    + simpl. by rewrite Hrs.
    + rewrite Hlog, emit_log.
      change (log (results_world extensions w0))
        with (log w0 ++ results_events extensions).
      unfold w0. rewrite iteration_world_log.
      unfold iteration_events. rewrite <- !app_assoc. simpl.
      by rewrite <- ?app_assoc.
    + rewrite !count_app, count_iteration_events, count_results_events, Hc1
        by apply is_pulled_marker. done.
    + rewrite !count_app, count_iteration_events, count_results_events, Hc2
        by apply is_emitted_marker. done.
    + rewrite !count_app, count_iteration_events, count_results_events, Hc3
        by apply is_entered_marker. done.
    + rewrite !count_app, count_iteration_events, count_results_events, Hc4
        by apply is_exited_marker. done.
Qed.

Lemma close_at_event aiterator running w :
  aclose (AtEvent op aiterator running) w = (exit_world Operation extensions w, Ok tt).
Proof using clean_operation.
  unfold aclose, op. by rewrite aexit_clean.
Qed.
End CleanTaking.



(** ** The per-iteration mapping *)

Lemma perform_all_ctx p effs hooks w1 w2 :
  ctx w1 = ctx w2 ->
  ctx (perform_all p effs hooks w1) = ctx (perform_all p effs hooks w2).
Proof.
  revert w1 w2. induction hooks as [|h hooks IH]; intros w1 w2 H; simpl; [done|].
  apply IH. simpl. by rewrite H.
Qed.

Lemma iteration_world_ctx extensions w1 w2 :
  graphql_document (ctx w1) = graphql_document (ctx w2) ->
  ctx (iteration_world extensions w1) = ctx (iteration_world extensions w2).
Proof.
  intros H. unfold iteration_world, exit_world, enter_world, reset_world. simpl.
  apply perform_all_ctx. simpl. apply perform_all_ctx. simpl. by rewrite H.
Qed.



(** ** [subscribe] and the generator *)

Lemma asyncgen_raises_idem e : asyncgen_raises (asyncgen_raises e) = asyncgen_raises e.
Proof. by destruct e. Qed.

(** What [_subscribe] raises has left the body of an async generator. *)
Lemma subscribe_raises_converted sub s w w' e :
  _subscribe sub s w = (w', Raise e) -> asyncgen_raises e = e.
Proof.
  assert (Hop : forall op body w0,
            in_operation op body w0 = (w', Raise e) -> asyncgen_raises e = e).
  { intros op body w0. unfold in_operation.
    destruct (body w0) as [w1 [[[r0 s0]|]|e0]]; [done| |];
      destruct (__aexit__ Operation op w1) as [[? ?] [?|]];
      intros [= _ <-]; apply asyncgen_raises_idem. }
  destruct s as [|op|op|op aiterator running|op|]; simpl; try apply Hop; [|done].
  unfold start.
  destruct (new_phase_runner Operation _ w) as [w1 [hooks|e0]];
    [|intros [= _ <-]; apply asyncgen_raises_idem].
  destruct (__aenter__ Operation hooks w1) as [[op w2] [e0|]];
    [intros [= _ <-]; apply asyncgen_raises_idem|].
  apply Hop.
Qed.

(** The loop of [_wrapper] over the generator is the generator. *)
Lemma async_for_wrapper sub fuel s w :
  async_for (_wrapper sub) fuel (InAsyncFor s) w = drain fuel sub s w.
Proof.
  revert s w. induction fuel as [|fuel IH]; intros s w; [done|].
  rewrite drain_S. simpl.
  destruct (_subscribe sub s w) as [w1 [[r s'|]|e]] eqn:E; [|done|].
  - by rewrite IH.
  - by rewrite (subscribe_raises_converted _ _ _ _ _ E).
Qed.



(** ** The length of a subscription *)

Lemma async_with_ok {A} p extensions (body : M A) w w' a :
  async_with p extensions body w = (w', Ok a) ->
  exists w2 w3, body w2 = (w3, Ok a).
Proof.
  unfold async_with.
  destruct (new_phase_runner p extensions w) as [w1 [hooks|e]]; [|done].
  destruct (__aenter__ p hooks w1) as [[hooks1 w2] [e|]]; [done|].
  destruct (body w2) as [w3 o] eqn:E.
  destruct (__aexit__ p hooks1 w3) as [[hooks2 w4] [e|]]; [done|].
  intros [= _ ->]. by exists w2, w3.
Qed.

Lemma while_running_yields extensions op aiterator running w w' r s :
  while_running extensions op aiterator running w = (w', Ok (Some (r, s))) ->
  running = true
  /\ exists running',
       s = AtEvent op (after_pull aiterator) running'
       /\ (running' = true -> exists r0, aiterator 0 = Event r0).
Proof.
  unfold while_running. destruct running; [|done].
  cbv [mbind M_bind mret M_ret tell get_ctx set_ctx].
  destruct (async_with Executing extensions (pull_next aiterator) _)
    as [w2 [[pl rest]|e]] eqn:E; [|done].
  apply async_with_ok in E as (w3 & w4 & E). rewrite pull_next_eq in E.
  inversion E; subst. clear E.
  destruct (aiterator 0) as [r0|e] eqn:E0; simpl.
  - destruct (_handle_execution_result extensions r0 w2) as [w5 [r'|e]]; [|done].
    intros [= _ _ <-]. split; [done|]. exists true. split; [done|]. by eexists.
  - destruct (decide (e = StopAsyncIteration)); [done|].
    destruct (_handle_execution_result extensions _ w2) as [w5 [r'|e']]; [|done].
    intros [= _ _ <-]. split; [done|]. by exists false.
Qed.

Lemma in_try_yields extensions op body w w' r s :
  in_try extensions op body w = (w', Ok (Some (r, s))) ->
  body w = (w', Ok (Some (r, s))) \/ s = AtHookError op.
Proof.
  unfold in_try, try_except.
  destruct (body w) as [w1 [o|e]]; [by left|].
  cbv [mbind M_bind mret M_ret].
  destruct (_handle_execution_result _ _ w1) as [w2 [r'|e']]; [|done].
  intros [= _ _ <-]. by right.
Qed.

Lemma in_operation_yields op body w w' r s :
  in_operation op body w = (w', Ok (Yielded r s)) ->
  exists w1, body w = (w1, Ok (Some (r, s))).
Proof.
  unfold in_operation.
  destruct (body w) as [w1 [[[r0 s0]|]|e]].
  - intros [= _ <- <-]. by exists w1.
  - by destruct (__aexit__ Operation op w1) as [[? ?] [?|]].
  - by destruct (__aexit__ Operation op w1) as [[? ?] [?|]].
Qed.

Lemma stops_within_S n aiterator :
  stops_within n aiterator = true -> stops_within (S n) aiterator = true.
Proof.
  revert aiterator. induction n as [|n IH]; intros aiterator; [done|].
  simpl. destruct (aiterator 0); [|done]. apply IH.
Qed.

(** What the generator resumes from after a value yielded by the [try]
    block. *)
Lemma subscribe_block_yields sub op m w w' r s :
  subscribe_block sub op w = (w', Ok (Some (r, s))) ->
  (forall aiterator, sub_source sub = inr (EventIterator aiterator) ->
                     stops_within (S m) aiterator = true) ->
  yields_at_most sub m s.
Proof.
  unfold subscribe_block. intros H Hsrc.
  apply in_try_yields in H as [H| ->]; [|done].
  revert H. unfold mbind at 1, M_bind at 1.
  destruct (async_with Executing _ _ w) as [w2 [o|e]] eqn:E; [|done].
  apply async_with_ok in E as (w3 & w4 & E).
  revert E. cbv [mbind M_bind mret M_ret tell get_ctx raise].
  destruct (decide (graphql_document (ctx w3) = None)); [done|].
  destruct (sub_source sub) as [e|o'] eqn:Hs; [done|].
  intros [= _ ->].
  destruct o as [errs|aiterator].
  - destruct (_handle_execution_result _ _ w2) as [w5 [r'|e]]; [|done].
    by intros [= _ _ <-].
  - intros H. apply while_running_yields in H as (_ & running' & -> & Hev).
    simpl. intros ->. destruct (Hev eq_refl) as [r0 H0].
    specialize (Hsrc aiterator eq_refl). simpl in Hsrc. by rewrite H0 in Hsrc.
Qed.

(** Each value the generator yields leaves one value less to yield. *)
Lemma step_yields sub m s w w' r s' :
  _subscribe sub s w = (w', Ok (Yielded r s')) ->
  yields_at_most sub m s ->
  exists m', m = S m' /\ yields_at_most sub m' s'.
Proof.
  destruct s as [|op|op|op aiterator running|op|]; simpl.
  - unfold start.
    destruct (new_phase_runner Operation _ w) as [w1 [hooks|e]]; [|done].
    destruct (__aenter__ Operation hooks w1) as [[op w2] [e|]]; [done|].
    intros H (n & -> & Hn & Hsrc). exists n. split; [done|].
    apply in_operation_yields in H as (w3 & H).
    revert H. unfold mbind at 1, M_bind at 1.
    destruct (_parse_and_validate_async _ _ _ w2) as [w4 [[err|]|e]]; [| |done].
    + cbv [mbind M_bind mret M_ret].
      destruct (get_extensions_results _ w4) as [w5 [d|e]]; [|done].
      destruct (_handle_execution_result _ _ w5) as [w6 [r'|e]]; [|done].
      intros [= _ _ <-]. by split.
    + intros H. eapply subscribe_block_yields; [exact H|].
      intros aiterator Ha. by apply stops_within_S, Hsrc.
  - intros H [Hm Hsrc]. destruct m as [|m']; [lia|].
    exists m'. split; [done|].
    apply in_operation_yields in H as (w3 & H).
    by eapply subscribe_block_yields.
  - intros H. by apply in_operation_yields in H as (w3 & H).
  - intros H Hm. apply in_operation_yields in H as (w3 & H).
    destruct running;
      [|revert H; by unfold in_try, try_except, while_running, mret, M_ret].
    specialize (Hm eq_refl). destruct m as [|m']; [done|].
    exists m'. split; [done|].
    apply in_try_yields in H as [H| ->]; [|done].
    apply while_running_yields in H as (_ & running' & -> & Hev).
    simpl. intros ->.
    destruct (Hev eq_refl) as [r0 H0]. simpl in Hm. by rewrite H0 in Hm.
  - intros H. by apply in_operation_yields in H as (w3 & H).
  - done.
Qed.

Lemma drain_bounded sub fuel m s w :
  yields_at_most sub m s -> m < fuel ->
  (forall rs, (drain fuel sub s w).2 <> OutOfFuel rs)
  /\ length (received (drain fuel sub s w).2) <= m.
Proof.
  revert m s w. induction fuel as [|fuel IH]; intros m s w Hm Hfuel; [lia|].
  rewrite drain_S.
  destruct (_subscribe sub s w) as [w1 [[r s'|]|e]] eqn:E;
    [|split; [done|simpl; lia]|split; [done|simpl; lia]].
  destruct (step_yields sub m s w w1 r s' E Hm) as (m' & -> & Hm').
  destruct (IH m' s' w1 Hm' ltac:(lia)) as [H1 H2].
  destruct (drain fuel sub s' w1) as [w2 [rs|rs e|rs]]; simpl in *.
  - split; [done|lia].
  - split; [done|lia].
  - by destruct (H1 rs).
Qed.

(** X20. When an event iterator that [original_subscribe] returns raises
    at one of its first [n] pulls, be it the signal of its exhaustion or a
    failure, iterating the subscription ends within [n + 2] calls,
    whatever the extensions and the collaborators do: the generator is
    exhausted or raises, and by then it has yielded at most [n + 1]
    results. *)
Theorem subscription_to_finite_source_ends
    (sub : subscription) (n fuel : nat) (w : world) :
  0 < n ->
  (forall aiterator, sub_source sub = inr (EventIterator aiterator) ->
                     stops_within n aiterator = true) ->
  n + 2 <= fuel ->
  (forall rs, (drain fuel sub NotStarted w).2 <> OutOfFuel rs)
  /\ length (received (drain fuel sub NotStarted w).2) <= n + 1.
Proof.
  intros Hn Hsrc Hfuel.
  replace (n + 1) with (S n) by lia.
  apply drain_bounded; [|lia].
  exists n. by repeat split.
Qed.

Lemma subscription_to_finite_source_ends_witness :
  (forall rs,
     (drain 5 (subscription_to [tracing "A" true]
                 [Event (tick "1"); Event (tick "2")]) NotStarted fresh_world).2
     <> OutOfFuel rs)
  /\ length (received
               (drain 5 (subscription_to [tracing "A" true]
                           [Event (tick "1"); Event (tick "2")])
                  NotStarted fresh_world).2) <= 3 + 1.
Proof.
  apply (subscription_to_finite_source_ends
           (subscription_to [tracing "A" true] [Event (tick "1"); Event (tick "2")])
           3 5 fresh_world).
  - lia.
  - intros aiterator [= <-]. reflexivity.
  - lia.
Defined.

(** * Properties of the type containers *)

Section TypeContainers.
Import TypeAlgebra.

Variable has_type_definition : pyclass + StrawberryType -> bool.
Variable definition_is_generic : pyclass + StrawberryType -> bool.
Variable definition_copy_with :
  pyclass + StrawberryType -> gmap TypeVar (pyclass + StrawberryType)
  -> error + (pyclass + StrawberryType).
Variable parameters_of : pyclass + StrawberryType -> list TypeVar.

Lemma StrawberryType_chain_ind (P : StrawberryType -> Prop) :
  (forall v, P (StrawberryTypeVar v)) ->
  (forall cls c, P (Container cls (inl c))) ->
  (forall cls t, P t -> P (Container cls (inr t))) ->
  forall t, P t.
Proof.
  intros Hv Hc Ht. fix IH 1. intros [cls [c|t]|v].
  - apply Hc.
  - apply Ht, IH.
  - apply Hv.
Qed.

(** X21. Copying a type that is not generic changes nothing: [copy_with]
    returns a container of the same class around the same [of_type],
    whatever the mapping holds, without looking anything up. *)
Theorem copy_of_non_generic_type_is_the_type
    (self : StrawberryType) (type_var_map : gmap TypeVar (pyclass + StrawberryType)) :
  is_generic has_type_definition definition_is_generic self = false ->
  copy_with has_type_definition definition_is_generic definition_copy_with
    self type_var_map
  = inr (inr self).
Proof.
  destruct self as [cls of_type|v]; simpl; [|done].
  destruct (has_type_definition of_type).
  - by intros ->.
  - destruct of_type as [c|t]; [done|]. by intros ->.
Qed.

(** X22. When no [StrawberryType] instance passes for an object with a
    type definition, a type that has a type variable is generic and lists
    that variable among its type parameters. *)
Theorem type_with_a_variable_is_generic (self : StrawberryType) (type_var : TypeVar) :
  (forall t, has_type_definition (inr t) = false) ->
  has_generic self type_var = true ->
  is_generic has_type_definition definition_is_generic self = true
  /\ type_var ∈ type_params has_type_definition parameters_of self.
Proof.
  intros Hdef. induction self as [v|cls c|cls t IH] using StrawberryType_chain_ind;
    simpl.
  - intros H. apply bool_decide_eq_true in H as ->. split; [done|]. set_solver.
  - done.
  - rewrite Hdef. exact IH.
Qed.
End TypeContainers.

Lemma copy_of_non_generic_type_is_the_type_witness :
  TypeAlgebra.copy_with TypeAlgebra.undefined_everywhere
    (fun _ => false) (fun x _ => inr x)
    (TypeAlgebra.Container TypeAlgebra.StrawberryList
       (inr (TypeAlgebra.Container TypeAlgebra.StrawberryOptional (inl "int"))))
    ∅
  = inr (inr (TypeAlgebra.Container TypeAlgebra.StrawberryList
                (inr (TypeAlgebra.Container TypeAlgebra.StrawberryOptional (inl "int"))))).
Proof.
  apply (copy_of_non_generic_type_is_the_type TypeAlgebra.undefined_everywhere
           (fun _ => false) (fun x _ => inr x)).
  reflexivity.
Defined.

Lemma type_with_a_variable_is_generic_witness :
  TypeAlgebra.is_generic TypeAlgebra.undefined_everywhere (fun _ => false)
    (TypeAlgebra.Container TypeAlgebra.StrawberryList
       (inr (TypeAlgebra.StrawberryTypeVar "T")))
  = true
  /\ "T" ∈ TypeAlgebra.type_params TypeAlgebra.undefined_everywhere (fun _ => [])
             (TypeAlgebra.Container TypeAlgebra.StrawberryList
                (inr (TypeAlgebra.StrawberryTypeVar "T"))).
Proof.
  apply (type_with_a_variable_is_generic TypeAlgebra.undefined_everywhere
           (fun _ => false) (fun _ => [])).
  - reflexivity.
  - reflexivity.
Defined.

Section UndefinedClasses.
Import TypeAlgebra.

Variable definition_is_generic : pyclass + StrawberryType -> bool.
Variable definition_copy_with :
  pyclass + StrawberryType -> gmap TypeVar (pyclass + StrawberryType)
  -> error + (pyclass + StrawberryType).

Lemma substitute_non_generic self type_var_map :
  is_generic undefined_everywhere definition_is_generic self = false ->
  substitute self type_var_map = inr (inr self).
Proof.
  induction self as [v|cls c|cls t IH] using StrawberryType_chain_ind; simpl;
    [done|done|].
  intros H. by rewrite IH.
Qed.

Lemma copy_with_substitute self type_var_map :
  copy_with undefined_everywhere definition_is_generic definition_copy_with
    self type_var_map
  = substitute self type_var_map.
Proof.
  induction self as [v|cls c|cls t IH] using StrawberryType_chain_ind; simpl;
    [done|done|].
  destruct (is_generic undefined_everywhere definition_is_generic t) eqn:E.
  - by rewrite IH.
  - by rewrite substitute_non_generic.
Qed.

Lemma substitute_fails self type_var_map e :
  substitute self type_var_map = inl e
  <-> exists v, e = KeyError v /\ has_generic self v = true /\ type_var_map !! v = None.
Proof.
  induction self as [v|cls c|cls t IH] using StrawberryType_chain_ind; simpl.
  - destruct (type_var_map !! v) as [x|] eqn:E.
    + split; [done|]. intros (v' & _ & Hv & Hm).
      apply bool_decide_eq_true in Hv as ->. congruence.
    + split.
      * intros [= <-]. exists v. by rewrite bool_decide_eq_true_2.
      * intros (v' & -> & Hv & _). by apply bool_decide_eq_true in Hv as ->.
  - split; [done|]. by intros (v & _ & ? & _).
  - rewrite <- IH. destruct (substitute t type_var_map) as [e'|x]; [|done].
    split; by intros [= ->].
Qed.

(** X23. Where no object has a type definition, [copy_with] is the
    substitution of the type variable a chain of containers ends in: the
    tests for generic types it makes on the way only save work.  It
    therefore fails exactly when that variable is missing from the mapping,
    with the [KeyError] of that variable. *)
Theorem copy_with_substitutes_the_variable
    (self : StrawberryType) (type_var_map : gmap TypeVar (pyclass + StrawberryType)) :
  copy_with undefined_everywhere definition_is_generic definition_copy_with
    self type_var_map
  = substitute self type_var_map
  /\ forall e,
       copy_with undefined_everywhere definition_is_generic definition_copy_with
         self type_var_map = inl e
       <-> exists v,
             e = KeyError v /\ has_generic self v = true /\ type_var_map !! v = None.
Proof.
  split; [apply copy_with_substitute|].
  intros e. rewrite copy_with_substitute. apply substitute_fails.
Qed.
End UndefinedClasses.

(** X24. [get_field_by_name] returns the first field of the definition
    whose [python_name] is the name asked for, and raises the [NameError]
    naming it exactly when no field has it; a field without a
    [python_name] is never found. *)
Theorem get_field_by_name_finds_first
    (fields : list TypeAlgebra.StrawberryField) (name : string) :
  (forall field,
     TypeAlgebra.get_field_by_name fields name = inr field
     <-> exists before after,
           fields = before ++ field :: after
           /\ TypeAlgebra.python_name field = Some name
           /\ Forall (fun f => TypeAlgebra.python_name f <> Some name) before)
  /\ (forall msg,
        TypeAlgebra.get_field_by_name fields name = inl msg
        <-> msg = "field <" +:+ name +:+ "> not found"
            /\ Forall (fun f => TypeAlgebra.python_name f <> Some name) fields).
Proof.
  induction fields as [|f rest [IHfound IHmissing]]; simpl.
  - split.
    + intros field. split; [done|]. intros (before & after & H & _).
      by destruct before.
    + intros msg. split; [by intros [= <-]|]. by intros [-> _].
  - destruct (bool_decide (TypeAlgebra.python_name f = Some name)) eqn:E.
    + apply bool_decide_eq_true in E. split.
      * intros field. split.
        -- intros [= <-]. by exists [], rest.
        -- intros (before & after & H & Hname & Hbefore).
           destruct before as [|g before]; simpl in H; inversion H; subst; [done|].
           apply Forall_cons in Hbefore as [Hg _]. done.
      * intros msg. split; [done|]. intros [_ H].
        apply Forall_cons in H as [H _]. done.
    + apply bool_decide_eq_false in E. split.
      * intros field. rewrite IHfound. split.
        -- intros (before & after & -> & Hname & Hbefore).
           exists (f :: before), after. repeat split; [done|]. by constructor.
        -- intros (before & after & H & Hname & Hbefore).
           destruct before as [|g before]; simpl in H; inversion H; subst; [done|].
           apply Forall_cons in Hbefore as [_ Hbefore]. by exists before, after.
      * intros msg. rewrite IHmissing, Forall_cons. tauto.
Qed.
